(** * IAA compressor plugin for RocksDB: the compress / uncompress core

    A shallow embedding of [src/iaa_compressor.cc]: the length framer
    ([EncodeSize] / [DecodeSize]), the per-thread job caches
    ([deflate_job_] / [inflate_job_]) and the two entry points
    [Compress] and [Uncompress], run against an opaque QPL engine. *)

From Stdlib Require Import ZArith Lia.
From stdpp Require Import base tactics option list gmap strings pretty.

Local Open Scope Z_scope.

(** ** Machine integers

    [size_t] is 64 bits wide and [uint32_t] 32 bits wide; both are carried
    as [Z] and every conversion or unsigned operation that can wrap is
    written out with [wrap64] / [wrap32]. *)

Definition UINT32_MAX : Z := 2 ^ 32 - 1.

Definition wrap32 (z : Z) : Z := z mod 2 ^ 32.
Definition wrap64 (z : Z) : Z := z mod 2 ^ 64.

(** A [std::string] or a [char] range is the list of its bytes, each byte a
    [Z] in [0, 256). *)
Abbreviation bytes := (list Z).

(** ** Varint32 coding (RocksDB [util/coding.h]) *)

Module Coding.

(** Modelled from the spec: [PutVarint32] and [GetVarint32Ptr] are declared
    in RocksDB's [util/coding.h], which [iaa_compressor.cc] includes but
    which is not part of this repository.  The encoding is the base-128
    little-endian varint: 7 payload bits per byte, the high bit of a byte
    is the continuation bit and is set on all but the last byte, and the
    encoding is minimal.  A 32-bit value takes at most 5 bytes, so [more]
    counts the groups that may still follow the current one. *)
Fixpoint EncodeVarint32 (more : nat) (v : Z) : bytes :=
  match more with
  | O => [v]
  | S more' =>
      if v <? 128 then [v]
      else Z.lor (Z.land v 127) 128 :: EncodeVarint32 more' (Z.shiftr v 7)
  end.

(** Modelled from the spec: [PutVarint32 dst v] appends the varint of the
    32-bit value [v] to [dst]. *)
Definition PutVarint32 (dst : bytes) (v : Z) : bytes :=
  dst ++ EncodeVarint32 4 v.

(** Modelled from the spec: the decoding loop behind [GetVarint32Ptr]; it
    reads at most [groups] bytes from [p], accumulates the 7-bit groups in
    the 32-bit [result] from the least significant one, and stops at the
    first byte without the continuation bit.  Running out of bytes (an
    empty or truncated prefix) or of groups is the null-pointer result,
    here [None]. *)
Fixpoint GetVarint32PtrFallback (groups : nat) (shift result : Z) (p : bytes)
  : option (bytes * Z) :=
  match groups, p with
  | S groups', byte :: p' =>
      if Z.land byte 128 =? 0
      then Some (p', Z.lor result (wrap32 (Z.shiftl byte shift)))
      else GetVarint32PtrFallback groups' (shift + 7)
             (Z.lor result (wrap32 (Z.shiftl (Z.land byte 127) shift))) p'
  | _, _ => None
  end.

(** Modelled from the spec: [GetVarint32Ptr p limit value], with the range
    [p, limit) given as the list of its bytes; the result is the rest of
    the range after the varint together with the decoded value. *)
Definition GetVarint32Ptr (p : bytes) : option (bytes * Z) :=
  GetVarint32PtrFallback 5 0 0 p.

End Coding.

(** ** The length framer *)

(** [IAACompressor::EncodeSize]: the [size_t] length is converted to the
    [uint32_t] parameter of [PutVarint32]; the result is [output->size()]
    converted to [uint32_t], paired here with the new contents of
    [*output]. *)
Definition EncodeSize (length : Z) (output : bytes) : Z * bytes :=
  let output' := Coding.PutVarint32 output (wrap32 length) in
  (wrap32 (Z.of_nat (List.length output')), output').

(** [IAACompressor::DecodeSize]: [None] is the [false] result; otherwise the
    advanced input range (its length is the updated [*input_length]) and the
    decoded [*output_length]. *)
Definition DecodeSize (input : bytes) : option (bytes * Z) :=
  match Coding.GetVarint32Ptr input with
  | None => None
  | Some (new_input, output_length) => Some (new_input, output_length)
  end.

(** The framer as the specification names it: [encode_size n] is what
    [EncodeSize] appends to an empty string, and [decode_size] reports the
    decoded value with the number of bytes [DecodeSize] advanced over. *)
Definition encode_size (n : Z) : bytes := snd (EncodeSize n []).

Definition decode_size (buffer : bytes) : option (Z * nat) :=
  match DecodeSize buffer with
  | None => None
  | Some (new_input, n) =>
      Some (n, (List.length buffer - List.length new_input)%nat)
  end.

(** ** The QPL interface ([qpl/qpl.h]) and RocksDB types the plugin uses

    Neither header is part of the repository.  Types are declared as the
    plugin uses them, and what the engine computes is left as a parameter
    ([QplEngine] below). *)

Inductive qpl_path_t := qpl_path_auto | qpl_path_hardware | qpl_path_software.

(** The value of a [qpl_path_t], used as the index into the job vectors:
    the three enumerators index vectors of three entries. *)
Definition path_index (p : qpl_path_t) : nat :=
  match p with
  | qpl_path_auto => 0
  | qpl_path_hardware => 1
  | qpl_path_software => 2
  end.

Inductive qpl_compression_mode := dynamic_mode | fixed_mode.
Inductive qpl_compression_levels := qpl_default_level | qpl_high_level.
Inductive qpl_operation := qpl_op_compress | qpl_op_decompress.

(** [job->flags] is kept as the list of the flag constants or-ed into it. *)
Inductive qpl_flag :=
| QPL_FLAG_FIRST
| QPL_FLAG_LAST
| QPL_FLAG_OMIT_CHECKSUMS
| QPL_FLAG_OMIT_VERIFY
| QPL_FLAG_DYNAMIC_HUFFMAN.

(** A [qpl_status] is the integer value of the enumeration. *)
Definition qpl_status := Z.

(** A pointer is a position inside an object of known extent. *)
Inductive object :=
| SliceData (addr : Z)      (* the bytes a [Slice] refers to *)
| InputRange                (* the [input] range handed to [Uncompress] *)
| OutputString              (* the character array of [*output] in [Compress] *)
| HeapBlock (addr : Z).     (* a block returned by the memory allocator *)

Record pointer := { ptr_object : object; ptr_extent : Z; ptr_offset : Z }.

Record qpl_job := {
  next_in_ptr : pointer;
  available_in : Z;
  next_out_ptr : pointer;
  available_out : Z;
  job_level : option qpl_compression_levels;
  op : qpl_operation;
  flags : list qpl_flag
}.

(** The memory behind one [std::unique_ptr<char[]>] of a job vector: where
    it lives, how many bytes [qpl_get_job_size] asked for, and whether
    [qpl_init_job] has returned [QPL_STS_OK] on it. *)
Record job_buffer := {
  buf_addr : nat;
  buf_size : Z;
  buf_initialized : bool
}.

#[global] Instance qpl_path_t_eq_dec : EqDecision qpl_path_t.
Proof. solve_decision. Defined.
#[global] Instance qpl_operation_eq_dec : EqDecision qpl_operation.
Proof. solve_decision. Defined.
#[global] Instance qpl_compression_mode_eq_dec : EqDecision qpl_compression_mode.
Proof. solve_decision. Defined.

(** What one [qpl_execute_job] call leaves behind: the returned status,
    [job->total_out], and the bytes stored from [job->next_out_ptr] on. *)
Record exec_result := {
  exec_status : qpl_status;
  exec_total_out : Z;
  exec_written : bytes
}.

(** The engine is opaque: its entry points are functions of an engine state
    [E] the plugin never looks into.  [make_unique_char_array] is
    [std::make_unique<char[]>], [false] standing for [std::bad_alloc].  The
    two status constants are distinct enumerators of [qpl_status]. *)
Class QplEngine (E : Type) := {
  QPL_STS_OK : qpl_status;
  QPL_STS_QUEUES_ARE_BUSY_ERR : qpl_status;
  QPL_STS_OK_not_busy : QPL_STS_OK <> QPL_STS_QUEUES_ARE_BUSY_ERR;
  qpl_get_job_size : qpl_path_t -> E -> qpl_status * Z * E;
  qpl_init_job : qpl_path_t -> job_buffer -> E -> qpl_status * E;
  qpl_execute_job : job_buffer -> qpl_job -> E -> exec_result * E;
  make_unique_char_array : Z -> E -> bool * E
}.

(** [rocksdb::Slice]. *)
Record Slice := { data_ : Z; size_ : Z }.

(** [rocksdb::Status], as far as the plugin builds it. *)
Inductive Status := OK | Corruption (msg : string).

(** A [MemoryAllocator] either returns a pointer (0 is [nullptr]) or throws
    [std::bad_alloc]. *)
Inductive alloc_outcome := AllocReturns (p : Z) | AllocThrows.

Record UncompressionInfo := { GetMemoryAllocator : Z -> alloc_outcome }.

(** [Allocate(size, allocator)] of RocksDB: the allocation is made by the
    allocator the caller supplies, which returns a pointer or null, or
    throws when memory is exhausted. *)
Definition Allocate (size : Z) (allocator : Z -> alloc_outcome) : alloc_outcome :=
  allocator size.

Record IAACompressorOptions := {
  execution_path : qpl_path_t;
  compression_mode : qpl_compression_mode;
  verify : bool;
  level : Z;
  parallel_threads : Z
}.

(** [CompressionOptions::kDefaultCompressionLevel] of RocksDB. *)
Definition kDefaultCompressionLevel : Z := 32767.

Definition MEMORY_ALLOCATION_ERROR : string := "memory allocation error".
Definition QPL_STATUS (status : qpl_status) : string :=
  "QPL status " +:+ pretty status.
Arguments QPL_STATUS : simpl never.

(** ** Calls that leave the plugin

    Every call the plugin makes to the engine, to [std::make_unique] or to
    the memory allocator is recorded with what it returned.  The plugin
    never calls [Deallocate]; its event is there for that to be stated. *)

Inductive job_cache := Deflate | Inflate.

Inductive event :=
| CallGetJobSize (tid : nat) (path : qpl_path_t) (status : qpl_status) (size : Z)
| CallMakeUnique (tid : nat) (size : Z) (allocated : bool)
| CallInitJob (tid : nat) (path : qpl_path_t) (buf : job_buffer) (status : qpl_status)
| CallExecuteJob (tid : nat) (cache : job_cache) (buf : job_buffer)
    (job : qpl_job) (result : exec_result)
| CallAllocate (tid : nat) (size : Z) (result : alloc_outcome)
| CallDeallocate (tid : nat) (p : Z).

Definition is_setup_event (ev : event) : bool :=
  match ev with
  | CallGetJobSize _ _ _ _ | CallMakeUnique _ _ _ | CallInitJob _ _ _ _ => true
  | _ => false
  end.

Definition is_allocator_event (ev : event) : bool :=
  match ev with
  | CallAllocate _ _ _ | CallDeallocate _ _ => true
  | _ => false
  end.

Definition is_deallocate_event (ev : event) : bool :=
  match ev with
  | CallDeallocate _ _ => true
  | _ => false
  end.

(** The [qpl_execute_job] calls among some events, oldest first. *)
Definition execution_of (ev : event)
  : option (job_cache * job_buffer * qpl_job * exec_result) :=
  match ev with
  | CallExecuteJob _ cache buf job result => Some (cache, buf, job, result)
  | _ => None
  end.

Definition executions (evs : list event)
  : list (job_cache * job_buffer * qpl_job * exec_result) :=
  omap execution_of evs.

Definition execute_statuses (evs : list event) : list qpl_status :=
  (fun x => exec_status (snd x)) <$> executions evs.
Arguments execute_statuses : simpl never.

(** A call either returns, or is still in its retry loop when the fuel of
    the model is used up; both leave a state behind. *)
Inductive run (R W : Type) :=
| Returns (r : R) (w : W)
| Spinning (w : W).
Arguments Returns {R W} r w.
Arguments Spinning {R W} w.

Definition final_state {R W : Type} (r : run R W) : W :=
  match r with
  | Returns _ w => w
  | Spinning w => w
  end.

Definition returned {R W : Type} (r : run R W) : option R :=
  match r with
  | Returns x _ => Some x
  | Spinning _ => None
  end.

(** [std::string::resize]: new characters are value-initialised. *)
Definition string_resize (n : Z) (s : bytes) : bytes := resize (Z.to_nat n) 0 s.

(** The engine storing [written] from position [off] of a character array;
    the array keeps its size. *)
Definition store_at (off : Z) (written s : bytes) : bytes :=
  list_inserts (Z.to_nat off) written s.

(** ** The compressor against an engine *)

Section Compressor.

Context {E : Type} `{QplEngine E}.

(** The state a call runs in.  [deflate_job_] and [inflate_job_] are the
    two [thread_local] vectors of three [unique_ptr]s: slot [i] of the
    vector of thread [tid] is the entry at key [(tid, i)], and a missing
    entry is a null [unique_ptr].  [next_addr] numbers the job buffers in
    the order they are created, and [trace] lists the outgoing calls made
    so far, oldest first. *)
Record World := {
  engine : E;
  deflate_job_ : gmap (nat * nat) job_buffer;
  inflate_job_ : gmap (nat * nat) job_buffer;
  next_addr : nat;
  trace : list event
}.

Definition set_engine (e : E) (w : World) : World :=
  {| engine := e; deflate_job_ := deflate_job_ w;
     inflate_job_ := inflate_job_ w; next_addr := next_addr w;
     trace := trace w |}.

Definition log (ev : event) (w : World) : World :=
  {| engine := engine w; deflate_job_ := deflate_job_ w;
     inflate_job_ := inflate_job_ w; next_addr := next_addr w;
     trace := trace w ++ [ev] |}.

Definition job_vector (c : job_cache) (w : World) : gmap (nat * nat) job_buffer :=
  match c with
  | Deflate => deflate_job_ w
  | Inflate => inflate_job_ w
  end.

Definition set_job_vector (c : job_cache) (v : gmap (nat * nat) job_buffer)
    (w : World) : World :=
  match c with
  | Deflate =>
      {| engine := engine w; deflate_job_ := v;
         inflate_job_ := inflate_job_ w; next_addr := next_addr w;
         trace := trace w |}
  | Inflate =>
      {| engine := engine w; deflate_job_ := deflate_job_ w;
         inflate_job_ := v; next_addr := next_addr w;
         trace := trace w |}
  end.

Definition bump_addr (w : World) : World :=
  {| engine := engine w; deflate_job_ := deflate_job_ w;
     inflate_job_ := inflate_job_ w; next_addr := S (next_addr w);
     trace := trace w |}.

(** The calls a run has added to the trace of the state it started in. *)
Definition new_events {R : Type} (w : World) (r : run R World) : list event :=
  drop (List.length (trace w)) (trace (final_state r)).

(** [IAACompressor::GetQplLevel]. *)
Definition GetQplLevel (level : Z) : qpl_compression_levels :=
  if (level =? 0) || (level =? kDefaultCompressionLevel)
  then qpl_default_level
  else qpl_high_level.

(** Lines 129-147 of [Compress] and 207-227 of [Uncompress], the same
    statements over [deflate_job_] and over [inflate_job_]: look the job
    up in slot [execution_path] of the calling thread's vector and, when
    the slot is null, size, allocate and initialise a new job there.  The
    [inl] result is the [Status] of an early [return]; [inr] is the job
    the rest of the call uses. *)
Definition acquire_job (c : job_cache) (tid : nat) (execution_path : qpl_path_t)
    (w : World) : (Status + job_buffer) * World :=
  let slot := (tid, path_index execution_path) in
  match job_vector c w !! slot with
  | None =>
      let '(status, size, e) := qpl_get_job_size execution_path (engine w) in
      let w := log (CallGetJobSize tid execution_path status size)
                 (set_engine e w) in
      if decide (status <> QPL_STS_OK)
      then (inl (Corruption (QPL_STATUS status)), w)
      else
        let '(allocated, e) := make_unique_char_array size (engine w) in
        let w := log (CallMakeUnique tid size allocated) (set_engine e w) in
        if negb allocated
        then (inl (Corruption MEMORY_ALLOCATION_ERROR), w)
        else
          let job := {| buf_addr := next_addr w; buf_size := size;
                        buf_initialized := false |} in
          let w := set_job_vector c (<[slot := job]> (job_vector c w))
                     (bump_addr w) in
          let '(status, e) := qpl_init_job execution_path job (engine w) in
          let w := log (CallInitJob tid execution_path job status)
                     (set_engine e w) in
          if decide (status <> QPL_STS_OK)
          then (inl (Corruption (QPL_STATUS status)), w)
          else
            let job := {| buf_addr := buf_addr job; buf_size := buf_size job;
                          buf_initialized := true |} in
            (inr job, set_job_vector c (<[slot := job]> (job_vector c w)) w)
  | Some job => (inr job, w)
  end.

(** The retry loop of lines 171-174 and 242-245:
    [status = BUSY; while (status == BUSY) status = qpl_execute_job(job);]
    over whatever state [S] one execution changes.  A loop that is still
    busy after [fuel] executions is [Spinning]. *)
Fixpoint execute_while_busy {S : Type} (fuel : nat)
    (execute : S -> qpl_status * S) (s : S) : run qpl_status S :=
  match fuel with
  | O => Spinning s
  | Datatypes.S fuel' =>
      let '(status, s') := execute s in
      if decide (status = QPL_STS_QUEUES_ARE_BUSY_ERR)
      then execute_while_busy fuel' execute s'
      else Returns status s'
  end.

(** Lines 113-121 of [Compress]: the [size_t] worst-case length, replaced
    by the largest [uint32_t] when it is above it. *)
Definition Compress_output_length (output_header_length input_length : Z) : Z :=
  let output_length :=
    wrap64 (output_header_length + input_length +
            (input_length / 65535 +
             (if decide (input_length mod 65535 <> 0) then 1 else 0)) * 5) in
  if decide (output_length > UINT32_MAX) then UINT32_MAX else output_length.

(** Lines 149-169 of [Compress]: the fields written into the job.
    [output] is [*output] after the resize of line 122. *)
Definition Compress_job (options_ : IAACompressorOptions) (input : Slice)
    (output : bytes) (output_header_length output_length : Z) : qpl_job :=
  {| next_in_ptr := {| ptr_object := SliceData (data_ input);
                       ptr_extent := size_ input; ptr_offset := 0 |};
     available_in := wrap32 (size_ input);
     next_out_ptr := {| ptr_object := OutputString;
                        ptr_extent := Z.of_nat (List.length output);
                        ptr_offset := output_header_length |};
     available_out := wrap32 (output_length - output_header_length);
     job_level := Some (GetQplLevel (level options_));
     op := qpl_op_compress;
     flags :=
       [QPL_FLAG_FIRST; QPL_FLAG_LAST; QPL_FLAG_OMIT_CHECKSUMS]
       ++ (if negb (verify options_) then [QPL_FLAG_OMIT_VERIFY] else [])
       ++ (if decide (compression_mode options_ = dynamic_mode)
           then [QPL_FLAG_DYNAMIC_HUFFMAN] else []) |}.

(** One [qpl_execute_job(job)] of [Compress]: the engine may store into
    [*output] from the header on, and sets [job->total_out]. *)
Definition Compress_execute (tid : nat) (buf : job_buffer) (job : qpl_job)
    (s : bytes * Z * World) : qpl_status * (bytes * Z * World) :=
  let '(output, _, w) := s in
  let '(r, e) := qpl_execute_job buf job (engine w) in
  (exec_status r,
   (store_at (ptr_offset (next_out_ptr job)) (exec_written r) output,
    wrap32 (exec_total_out r),
    log (CallExecuteJob tid Deflate buf job r) (set_engine e w))).

(** [IAACompressor::Compress], called on thread [tid].  A returning run
    carries the [Status] and the contents of [*output] at the return. *)
Definition Compress (tid : nat) (options_ : IAACompressorOptions)
    (input : Slice) (output : bytes) (fuel : nat) (w : World)
    : run (Status * bytes) World :=
  let '(output_header_length, output) := EncodeSize (size_ input) output in
  let input_length := size_ input in
  let output_length := Compress_output_length output_header_length input_length in
  let output := string_resize output_length output in
  let execution_path := execution_path options_ in
  match acquire_job Deflate tid execution_path w with
  | (inl status, w) => Returns (status, output) w
  | (inr buf, w) =>
      let job := Compress_job options_ input output
                   output_header_length output_length in
      match execute_while_busy fuel (Compress_execute tid buf job) (output, 0, w) with
      | Spinning (_, _, w) => Spinning w
      | Returns status (output, total_out, w) =>
          if decide (status <> QPL_STS_OK)
          then Returns (Corruption (QPL_STATUS status), output) w
          else
            Returns
              (OK, string_resize (wrap32 (output_header_length + total_out)) output)
              w
      end
  end.

(** Lines 229-240 of [Uncompress]: the fields written into the job.
    [input] is the range the call received, [new_input] what is left of
    it after the length prefix, [output] the allocated block. *)
Definition Uncompress_job (input new_input : bytes)
    (output encoded_output_length : Z) : qpl_job :=
  {| next_in_ptr :=
       {| ptr_object := InputRange;
          ptr_extent := Z.of_nat (List.length input);
          ptr_offset := Z.of_nat (List.length input)
                        - Z.of_nat (List.length new_input) |};
     available_in := wrap32 (Z.of_nat (List.length new_input));
     next_out_ptr :=
       {| ptr_object := HeapBlock output;
          ptr_extent := encoded_output_length;
          ptr_offset := 0 |};
     available_out := encoded_output_length;
     job_level := None;
     op := qpl_op_decompress;
     flags := [QPL_FLAG_FIRST; QPL_FLAG_LAST; QPL_FLAG_OMIT_CHECKSUMS] |}.

(** One [qpl_execute_job(job)] of [Uncompress]; the contents of the
    allocated block are not followed. *)
Definition Uncompress_execute (tid : nat) (buf : job_buffer) (job : qpl_job)
    (s : Z * World) : qpl_status * (Z * World) :=
  let '(_, w) := s in
  let '(r, e) := qpl_execute_job buf job (engine w) in
  (exec_status r,
   (wrap32 (exec_total_out r),
    log (CallExecuteJob tid Inflate buf job r) (set_engine e w))).

(** [IAACompressor::Uncompress], called on thread [tid].  [output] and
    [output_length] are the values the caller's [*output] and
    [*output_length] hold at the call; a returning run carries the
    [Status] and the values they hold at the return. *)
Definition Uncompress (tid : nat) (options_ : IAACompressorOptions)
    (info : UncompressionInfo) (input : bytes) (output output_length : Z)
    (fuel : nat) (w : World) : run (Status * Z * Z) World :=
  match DecodeSize input with
  | None => Returns (Corruption "size decoding error", output, output_length) w
  | Some (new_input, encoded_output_length) =>
      let allocation := Allocate encoded_output_length (GetMemoryAllocator info) in
      let w := log (CallAllocate tid encoded_output_length allocation) w in
      match allocation with
      | AllocThrows =>
          Returns (Corruption MEMORY_ALLOCATION_ERROR, output, output_length) w
      | AllocReturns p =>
          let output := p in
          if decide (output = 0)
          then Returns (Corruption MEMORY_ALLOCATION_ERROR, output, output_length) w
          else
            match acquire_job Inflate tid (execution_path options_) w with
            | (inl status, w) => Returns (status, output, output_length) w
            | (inr buf, w) =>
                let job := Uncompress_job input new_input
                             output encoded_output_length in
                match execute_while_busy fuel
                        (Uncompress_execute tid buf job) (0, w) with
                | Spinning (_, w) => Spinning w
                | Returns status (total_out, w) =>
                    if decide (status <> QPL_STS_OK)
                    then Returns (Corruption (QPL_STATUS status),
                                  output, output_length) w
                    else if decide (total_out <> encoded_output_length)
                    then Returns (Corruption "size mismatch",
                                  output, output_length) w
                    else Returns (OK, output, total_out) w
                end
            end
      end
  end.

End Compressor.

Arguments World E : clear implicits.

(** ** A scripted engine

    A test double for the engine: each entry point answers from its own
    list of prepared results, oldest first, and from a fixed last answer
    once the list is used up. *)

Module Scripted.

Record script := {
  job_size_results : list (qpl_status * Z);
  job_size_last : qpl_status * Z;
  make_unique_results : list bool;
  init_results : list qpl_status;
  init_last : qpl_status;
  execute_results : list exec_result;
  execute_last : exec_result
}.

Definition next_job_size (s : script) : qpl_status * Z * script :=
  match job_size_results s with
  | [] => (job_size_last s, s)
  | r :: rs =>
      (r, {| job_size_results := rs; job_size_last := job_size_last s;
             make_unique_results := make_unique_results s;
             init_results := init_results s; init_last := init_last s;
             execute_results := execute_results s;
             execute_last := execute_last s |})
  end.

Definition next_make_unique (s : script) : bool * script :=
  match make_unique_results s with
  | [] => (true, s)
  | r :: rs =>
      (r, {| job_size_results := job_size_results s;
             job_size_last := job_size_last s;
             make_unique_results := rs;
             init_results := init_results s; init_last := init_last s;
             execute_results := execute_results s;
             execute_last := execute_last s |})
  end.

Definition next_init (s : script) : qpl_status * script :=
  match init_results s with
  | [] => (init_last s, s)
  | r :: rs =>
      (r, {| job_size_results := job_size_results s;
             job_size_last := job_size_last s;
             make_unique_results := make_unique_results s;
             init_results := rs; init_last := init_last s;
             execute_results := execute_results s;
             execute_last := execute_last s |})
  end.

Definition next_execute (s : script) : exec_result * script :=
  match execute_results s with
  | [] => (execute_last s, s)
  | r :: rs =>
      (r, {| job_size_results := job_size_results s;
             job_size_last := job_size_last s;
             make_unique_results := make_unique_results s;
             init_results := init_results s; init_last := init_last s;
             execute_results := rs;
             execute_last := execute_last s |})
  end.

Lemma ok_not_busy : (0 : qpl_status) <> 5.
Proof. discriminate. Qed.

(** The status values are those of the test double, 0 for [QPL_STS_OK]
    and 5 for [QPL_STS_QUEUES_ARE_BUSY_ERR]. *)
#[global] Instance scripted_engine : QplEngine script := {|
  QPL_STS_OK := 0;
  QPL_STS_QUEUES_ARE_BUSY_ERR := 5;
  QPL_STS_OK_not_busy := ok_not_busy;
  qpl_get_job_size := fun _ s => next_job_size s;
  qpl_init_job := fun _ _ s => next_init s;
  qpl_execute_job := fun _ _ s => next_execute s;
  make_unique_char_array := fun _ s => next_make_unique s
|}.

Definition result (status : qpl_status) (total_out : Z) (written : bytes)
  : exec_result :=
  {| exec_status := status; exec_total_out := total_out;
     exec_written := written |}.

(** An engine on which sizing, allocation and initialisation succeed and
    whose executions answer [results] and then [last] for ever. *)
Definition healthy (results : list exec_result) (last : exec_result) : script :=
  {| job_size_results := []; job_size_last := (0, 4096);
     make_unique_results := [];
     init_results := []; init_last := 0;
     execute_results := results; execute_last := last |}.

Definition fresh (s : script) : World script :=
  {| engine := s; deflate_job_ := ∅; inflate_job_ := ∅;
     next_addr := 0; trace := [] |}.

End Scripted.

Definition default_options (path : qpl_path_t) : IAACompressorOptions :=
  {| execution_path := path; compression_mode := dynamic_mode;
     verify := false; level := 0; parallel_threads := 1 |}.

(** An engine whose first [qpl_get_job_size] fails with status 50 and on
    which everything succeeds afterwards. *)
Definition sizing_fails_once : Scripted.script :=
  {| Scripted.job_size_results := [(50, 0)];
     Scripted.job_size_last := (0, 4096);
     Scripted.make_unique_results := [];
     Scripted.init_results := [];
     Scripted.init_last := 0;
     Scripted.execute_results := [];
     Scripted.execute_last := Scripted.result 0 10 [] |}.

(** An engine whose first [qpl_init_job] fails with status 7 and on which
    everything else succeeds. *)
Definition init_fails_once : Scripted.script :=
  {| Scripted.job_size_results := [];
     Scripted.job_size_last := (0, 4096);
     Scripted.make_unique_results := [];
     Scripted.init_results := [7];
     Scripted.init_last := 0;
     Scripted.execute_results := [];
     Scripted.execute_last := Scripted.result 0 10 [] |}.

(** ** Values and shapes the statements speak of *)

(** The values lines 108-122 of [Compress] compute from the input and the
    string it is given: the header length, the capacity, the resized string
    and the job configured from them. *)
Definition Compress_header_length (input : Slice) (output : bytes) : Z :=
  (EncodeSize (size_ input) output).1.

Definition Compress_capacity (input : Slice) (output : bytes) : Z :=
  Compress_output_length (Compress_header_length input output) (size_ input).

Definition Compress_resized (input : Slice) (output : bytes) : bytes :=
  string_resize (Compress_capacity input output) (EncodeSize (size_ input) output).2.

Definition Compress_configured (options_ : IAACompressorOptions) (input : Slice)
    (output : bytes) : qpl_job :=
  Compress_job options_ input (Compress_resized input output)
    (Compress_header_length input output) (Compress_capacity input output).

Definition ceil_div (n d : Z) : Z := (n + d - 1) / d.


(** A range is cut inside its length prefix when every byte it has
    carries the continuation bit: it is empty, or ends before the last
    byte of the varint. *)
Definition truncated_prefix (input : bytes) : Prop :=
  Forall (fun byte => Z.land byte 128 <> 0) input.



(** A call of one of the two operations, with the fuel its run is given. *)
Inductive call :=
| CompressCall (tid : nat) (options_ : IAACompressorOptions)
    (input : Slice) (output : bytes) (fuel : nat)
| UncompressCall (tid : nat) (options_ : IAACompressorOptions)
    (info : UncompressionInfo) (input : bytes) (output output_length : Z)
    (fuel : nat).

Section Shapes.

Context {E : Type} `{QplEngine E}.

Implicit Types (w : World E) (c : job_cache) (path : qpl_path_t)
               (v : gmap (nat * nat) job_buffer).

Definition other_cache (c : job_cache) : job_cache :=
  match c with Deflate => Inflate | Inflate => Deflate end.

(** The five ways through the lookup on a job vector [v]: what is
    returned, the vector afterwards, and the calls made. *)
Inductive acquired (tid : nat) path v
  : Status + job_buffer -> gmap (nat * nat) job_buffer -> list event -> Prop :=
| acquired_cached job :
    v !! (tid, path_index path) = Some job ->
    acquired tid path v (inr job) v []
| acquired_size_failed status size :
    v !! (tid, path_index path) = None ->
    status <> QPL_STS_OK ->
    acquired tid path v (inl (Corruption (QPL_STATUS status))) v
      [CallGetJobSize tid path status size]
| acquired_alloc_failed size :
    v !! (tid, path_index path) = None ->
    acquired tid path v (inl (Corruption MEMORY_ALLOCATION_ERROR)) v
      [CallGetJobSize tid path QPL_STS_OK size; CallMakeUnique tid size false]
| acquired_init_failed status size job :
    v !! (tid, path_index path) = None ->
    status <> QPL_STS_OK ->
    buf_initialized job = false ->
    acquired tid path v (inl (Corruption (QPL_STATUS status)))
      (<[(tid, path_index path) := job]> v)
      [CallGetJobSize tid path QPL_STS_OK size; CallMakeUnique tid size true;
       CallInitJob tid path job status]
| acquired_initialized size job job' :
    v !! (tid, path_index path) = None ->
    buf_initialized job = false ->
    buf_initialized job' = true ->
    buf_addr job' = buf_addr job ->
    acquired tid path v (inr job') (<[(tid, path_index path) := job']> v)
      [CallGetJobSize tid path QPL_STS_OK size; CallMakeUnique tid size true;
       CallInitJob tid path job QPL_STS_OK].

Definition busy (r : exec_result) : Prop :=
  exec_status r = QPL_STS_QUEUES_ARE_BUSY_ERR.

(** The retry loop is the same for both operations; it is described once,
    for any [execute] over a state [S] that calls [qpl_execute_job] on one
    job, records the call in the state's [World], and keeps
    [job->total_out] of the last execution. *)
Definition executes_job {S : Type} (execute : S -> qpl_status * S)
    (world_of : S -> World E) (total_of : S -> Z)
    (tid : nat) c (buf : job_buffer) (job : qpl_job) : Prop :=
  forall s, exists r e,
    execute s = (exec_status r, (execute s).2)
    /\ world_of (execute s).2
       = log (CallExecuteJob tid c buf job r) (set_engine e (world_of s))
    /\ total_of (execute s).2 = wrap32 (exec_total_out r).

(** With [fuel] executions allowed, the loop either is still spinning
    after [fuel] busy answers, or has returned the first answer that is
    not busy. *)
Inductive retried {S : Type} (total_of : S -> Z) (fuel : nat)
  : run qpl_status S -> list exec_result -> Prop :=
| retried_spinning s' rs :
    List.length rs = fuel ->
    Forall busy rs ->
    retried total_of fuel (Spinning s') rs
| retried_returned s' rs r :
    (List.length rs < fuel)%nat ->
    Forall busy rs ->
    ~ busy r ->
    total_of s' = wrap32 (exec_total_out r) ->
    retried total_of fuel (Returns (exec_status r) s') (rs ++ [r]).

(** The ways a call ends before it reaches the retry loop, with the
    [Status] it returns: [DecodeSize] failing and the memory allocator
    throwing or returning [nullptr] (in [Uncompress] only), and the last
    call made being a [qpl_get_job_size] or a [qpl_init_job] that answered
    with a status other than [QPL_STS_OK], or a [std::make_unique] that
    threw. *)
Inductive ends_before_execution (c : job_cache) : list event -> Status -> Prop :=
| ends_at_framing :
    c = Inflate ->
    ends_before_execution c [] (Corruption "size decoding error")
| ends_at_allocation tid n result :
    c = Inflate ->
    result = AllocThrows \/ result = AllocReturns 0 ->
    ends_before_execution c [CallAllocate tid n result]
      (Corruption MEMORY_ALLOCATION_ERROR)
| ends_at_sizing evs tid path status size :
    status <> QPL_STS_OK ->
    last evs = Some (CallGetJobSize tid path status size) ->
    ends_before_execution c evs (Corruption (QPL_STATUS status))
| ends_at_make_unique evs tid size :
    last evs = Some (CallMakeUnique tid size false) ->
    ends_before_execution c evs (Corruption MEMORY_ALLOCATION_ERROR)
| ends_at_init evs tid path job status :
    status <> QPL_STS_OK ->
    last evs = Some (CallInitJob tid path job status) ->
    ends_before_execution c evs (Corruption (QPL_STATUS status)).


Section Runs.

Variables (tid : nat) (options_ : IAACompressorOptions).

Section OfCompress.

Variables (input : Slice) (output : bytes).

(** A run of [Compress] that starts with [v] in [deflate_job_]: the
    result, and the calls made. *)
Inductive Compress_run (fuel : nat) (v : gmap (nat * nat) job_buffer)
  : run (Status * bytes) (World E) -> list event -> Prop :=
| Compress_setup_failed status evs w' :
    acquired tid (execution_path options_) v (inl status) (deflate_job_ w') evs ->
    Compress_run fuel v
      (Returns (status, Compress_resized input output) w') evs
| Compress_spinning buf evs rs w' :
    acquired tid (execution_path options_) v (inr buf) (deflate_job_ w') evs ->
    List.length rs = fuel ->
    Forall busy rs ->
    Compress_run fuel v (Spinning w')
      (evs ++ (CallExecuteJob tid Deflate buf
                 (Compress_configured options_ input output) <$> rs))
| Compress_executed buf evs rs r out' w' :
    acquired tid (execution_path options_) v (inr buf) (deflate_job_ w') evs ->
    (List.length rs < fuel)%nat ->
    Forall busy rs ->
    ~ busy r ->
    List.length out' = List.length (Compress_resized input output) ->
    take (Z.to_nat (Compress_header_length input output)) out'
    = take (Z.to_nat (Compress_header_length input output))
        (Compress_resized input output) ->
    Compress_run fuel v
      (Returns
         (if decide (exec_status r <> QPL_STS_OK)
          then (Corruption (QPL_STATUS (exec_status r)), out')
          else (OK,
                string_resize
                  (wrap32 (Compress_header_length input output
                           + wrap32 (exec_total_out r))) out'))
         w')
      (evs ++ (CallExecuteJob tid Deflate buf
                 (Compress_configured options_ input output) <$> rs ++ [r])).

End OfCompress.

Section OfUncompress.

Variables (info : UncompressionInfo) (input : bytes) (output output_length : Z).

(** A run of [Uncompress] that starts with [v] in [inflate_job_]: the
    result, and the calls made. *)
Inductive Uncompress_run (fuel : nat) (v : gmap (nat * nat) job_buffer)
  : run (Status * Z * Z) (World E) -> list event -> Prop :=
| Uncompress_framing_error w' :
    DecodeSize input = None ->
    inflate_job_ w' = v ->
    Uncompress_run fuel v
      (Returns (Corruption "size decoding error", output, output_length) w') []
| Uncompress_alloc_threw new_input n w' :
    DecodeSize input = Some (new_input, n) ->
    Allocate n (GetMemoryAllocator info) = AllocThrows ->
    inflate_job_ w' = v ->
    Uncompress_run fuel v
      (Returns (Corruption MEMORY_ALLOCATION_ERROR, output, output_length) w')
      [CallAllocate tid n AllocThrows]
| Uncompress_alloc_null new_input n w' :
    DecodeSize input = Some (new_input, n) ->
    Allocate n (GetMemoryAllocator info) = AllocReturns 0 ->
    inflate_job_ w' = v ->
    Uncompress_run fuel v
      (Returns (Corruption MEMORY_ALLOCATION_ERROR, 0, output_length) w')
      [CallAllocate tid n (AllocReturns 0)]
| Uncompress_setup_failed new_input n p status evs w' :
    DecodeSize input = Some (new_input, n) ->
    Allocate n (GetMemoryAllocator info) = AllocReturns p ->
    p <> 0 ->
    acquired tid (execution_path options_) v (inl status) (inflate_job_ w') evs ->
    Uncompress_run fuel v
      (Returns (status, p, output_length) w')
      (CallAllocate tid n (AllocReturns p) :: evs)
| Uncompress_spinning new_input n p buf evs rs w' :
    DecodeSize input = Some (new_input, n) ->
    Allocate n (GetMemoryAllocator info) = AllocReturns p ->
    p <> 0 ->
    acquired tid (execution_path options_) v (inr buf) (inflate_job_ w') evs ->
    List.length rs = fuel ->
    Forall busy rs ->
    Uncompress_run fuel v (Spinning w')
      (CallAllocate tid n (AllocReturns p)
       :: evs ++ (CallExecuteJob tid Inflate buf
                    (Uncompress_job input new_input p n) <$> rs))
| Uncompress_executed new_input n p buf evs rs r w' :
    DecodeSize input = Some (new_input, n) ->
    Allocate n (GetMemoryAllocator info) = AllocReturns p ->
    p <> 0 ->
    acquired tid (execution_path options_) v (inr buf) (inflate_job_ w') evs ->
    (List.length rs < fuel)%nat ->
    Forall busy rs ->
    ~ busy r ->
    Uncompress_run fuel v
      (Returns
         (if decide (exec_status r <> QPL_STS_OK)
          then (Corruption (QPL_STATUS (exec_status r)), p, output_length)
          else if decide (wrap32 (exec_total_out r) <> n)
          then (Corruption "size mismatch", p, output_length)
          else (OK, p, wrap32 (exec_total_out r)))
         w')
      (CallAllocate tid n (AllocReturns p)
       :: evs ++ (CallExecuteJob tid Inflate buf
                    (Uncompress_job input new_input p n) <$> rs ++ [r])).

End OfUncompress.

End Runs.

Definition after_call (cl : call) (w : World E) : World E :=
  match cl with
  | CompressCall tid options_ input output fuel =>
      final_state (Compress tid options_ input output fuel w)
  | UncompressCall tid options_ info input output output_length fuel =>
      final_state (Uncompress tid options_ info input output output_length fuel w)
  end.

(** The state after a sequence of calls, made one after the other. *)
Definition after_calls (cs : list call) (w : World E) : World E :=
  foldl (fun w cl => after_call cl w) w cs.

End Shapes.

Definition operation_of (c : job_cache) : qpl_operation :=
  match c with
  | Deflate => qpl_op_compress
  | Inflate => qpl_op_decompress
  end.

(** The calls [evs] size, allocate and initialise nothing, and every
    execution among them runs operation [c] on the job buffer [job] taken
    from the vector of [c]. *)
Definition uses_only (c : job_cache) (job : job_buffer) (evs : list event) : Prop :=
  filter is_setup_event evs = []
  /\ Forall (fun x => x.1.1.1 = c /\ x.1.1.2 = job /\ op x.1.2 = operation_of c)
       (executions evs).


(** ** Answers of an execution step *)

(** [answers_busy execute k s s']: from [s], [k] executions in a row answer
    with the busy status and lead to [s']. *)
Inductive answers_busy {E : Type} `{QplEngine E} {S : Type}
    (execute : S -> qpl_status * S) : nat -> S -> S -> Prop :=
| answers_busy_O s : answers_busy execute 0 s s
| answers_busy_S k s s' s'' :
    execute s = (QPL_STS_QUEUES_ARE_BUSY_ERR, s') ->
    answers_busy execute k s' s'' ->
    answers_busy execute (Datatypes.S k) s s''.

(** An execution that keeps to what the job allows: it reports no more
    bytes than [available_out]. *)
Definition within_available_out
    (x : job_cache * job_buffer * qpl_job * exec_result) : Prop :=
  0 <= exec_total_out x.2 <= available_out x.1.2.

(** ** The slot of a call *)

(** The vector a call indexes ([deflate_job_] in [Compress], [inflate_job_]
    in [Uncompress]) and the place it indexes it at: the vector is
    [thread_local] and the index is [options_.execution_path]. *)
Definition call_cache (cl : call) : job_cache :=
  match cl with
  | CompressCall _ _ _ _ _ => Deflate
  | UncompressCall _ _ _ _ _ _ _ => Inflate
  end.

Definition call_slot (cl : call) : nat * nat :=
  match cl with
  | CompressCall tid options_ _ _ _
  | UncompressCall tid options_ _ _ _ _ _ =>
      (tid, path_index (execution_path options_))
  end.

(** ** Failures before a job exists *)

(** The two calls that can fail before the vector holds a job, each with
    the text of the [Status::Corruption] that the early [return] gives:
    [qpl_get_job_size] answering with a status other than [QPL_STS_OK], and
    [std::make_unique] throwing [std::bad_alloc]. *)
Inductive setup_failure {E : Type} `{QplEngine E} : event -> string -> Prop :=
| sizing_failed tid path status size :
    status <> QPL_STS_OK ->
    setup_failure (CallGetJobSize tid path status size) (QPL_STATUS status)
| make_unique_failed tid size :
    setup_failure (CallMakeUnique tid size false) MEMORY_ALLOCATION_ERROR.

(** * Proofs *)

(** ** Runs against the test double *)

Section WorkedRuns.

Import Scripted.

Let sw := default_options qpl_path_software.
Let block := {| data_ := 4096; size_ := 10 |}.
Let busy_answer := result 5 0 [].

Example encode_size_300 : encode_size 300 = [172; 2].
Proof. reflexivity. Qed.

Example encode_size_largest : encode_size (2 ^ 32 - 1) = [255; 255; 255; 255; 15].
Proof. reflexivity. Qed.

Example decode_size_300 : decode_size [172; 2; 7; 7] = Some (300, 2%nat).
Proof. reflexivity. Qed.

Example decode_size_cut : decode_size [172] = None.
Proof. reflexivity. Qed.

(** A 10-byte block compressed to 4 bytes: the string is first resized to
    1 + 10 + 5 bytes and then cut to the header and the 4 bytes. *)
Example Compress_ten_bytes :
  returned (Compress 0 sw block [] 1 (fresh (healthy [] (result 0 4 [9; 8; 7; 6]))))
  = Some (OK, [10; 9; 8; 7; 6])
  /\ List.length (Compress_resized block []) = 16%nat.
Proof. split; vm_compute; reflexivity. Qed.

(** Two busy answers, then success: three executions and a success. *)
Example Compress_after_two_busy :
  let w := fresh (healthy [busy_answer; busy_answer] (result 0 4 [9; 8; 7; 6])) in
  let r := Compress 0 sw block [] 3 w in
  returned r = Some (OK, [10; 9; 8; 7; 6])
  /\ execute_statuses (new_events w r) = [5; 5; 0].
Proof. split; vm_compute; reflexivity. Qed.

(** An engine that is busy for ever keeps the call in its loop. *)
Example Compress_busy_for_ever :
  let w := fresh (healthy [] busy_answer) in
  let r := Compress 0 sw block [] 4 w in
  returned r = None
  /\ execute_statuses (new_events w r) = [5; 5; 5; 5].
Proof. split; vm_compute; reflexivity. Qed.

(** The status of a failed execution is in the message, as in the test
    [CompressEmptyInput]. *)
Example Compress_status_50 :
  (fun x => x.1)
    <$> returned (Compress 0 sw {| data_ := 0; size_ := 0 |} [] 1
                    (fresh (healthy [] (result 50 0 []))))
  = Some (Corruption "QPL status 50").
Proof. vm_compute. reflexivity. Qed.

(** A decompression to the framed size succeeds, as in the round-trip
    tests. *)
Example Uncompress_framed_size :
  returned (Uncompress 0 sw {| GetMemoryAllocator := fun _ => AllocReturns 4096 |}
              [172; 2; 7; 7] 0 0 1 (fresh (healthy [] (result 0 300 []))))
  = Some (OK, 4096, 300).
Proof. vm_compute. reflexivity. Qed.

End WorkedRuns.

(** ** Bit-level facts used by the varint proofs *)

Section BitFacts.

Lemma land_128_small v : 0 <= v < 128 -> Z.land v 128 = 0.
Proof.
  intros Hv. apply Z.bits_inj'. intros i Hi.
  rewrite Z.land_spec, Z.bits_0.
  change 128 with (2 ^ 7). rewrite Z.pow2_bits_eqb by lia.
  destruct (Z.eqb_spec 7 i) as [<-|_]; [|apply andb_false_r].
  rewrite andb_true_r. apply (Z.testbit_false v 7); [lia|].
  change (2 ^ 7) with 128. rewrite Z.div_small by lia. reflexivity.
Qed.

Lemma land_127_mod v : Z.land v 127 = v mod 128.
Proof. change 127 with (Z.ones 7). rewrite Z.land_ones by lia. reflexivity. Qed.

Lemma lor_disjoint_add r x s :
  0 <= s -> 0 <= r < 2 ^ s -> Z.lor r (Z.shiftl x s) = r + x * 2 ^ s.
Proof.
  intros Hs Hr.
  assert (Hdisj : Z.land r (Z.shiftl x s) = 0).
  { apply Z.bits_inj'. intros i Hi. rewrite Z.land_spec, Z.bits_0.
    destruct (Z.lt_ge_cases i s) as [Hlt|Hge].
    - rewrite Z.shiftl_spec_low by lia. apply andb_false_r.
    - destruct (Z.eq_dec r 0) as [->|Hr0]; [rewrite Z.bits_0; reflexivity|].
      rewrite (Z.bits_above_log2 r i); [reflexivity|lia|].
      apply Z.lt_le_trans with s; [|lia].
      apply Z.log2_lt_pow2; lia. }
  rewrite <- Z.lxor_lor by exact Hdisj.
  rewrite <- Z.add_nocarry_lxor by exact Hdisj.
  rewrite Z.shiftl_mul_pow2 by lia. reflexivity.
Qed.

Lemma continuation_byte v :
  0 <= v -> Z.lor (Z.land v 127) 128 = v mod 128 + 128.
Proof.
  intros Hv. rewrite land_127_mod.
  change 128 with (Z.shiftl 1 7) at 2.
  rewrite lor_disjoint_add; [lia|lia|].
  change (2 ^ 7) with 128. apply Z.mod_pos_bound. lia.
Qed.

Lemma land_128_continuation m : 0 <= m < 128 -> Z.land (m + 128) 128 = 128.
Proof.
  intros Hm. apply Z.bits_inj'. intros i Hi.
  rewrite Z.land_spec. change 128 with (2 ^ 7) at 2 3.
  rewrite Z.pow2_bits_eqb by lia.
  destruct (Z.eqb_spec 7 i) as [<-|_]; [|apply andb_false_r].
  rewrite andb_true_r. apply (Z.testbit_true (m + 128) 7); [lia|].
  change (2 ^ 7) with 128.
  replace (m + 128) with (m + 1 * 128) by lia.
  rewrite Z.div_add by lia. rewrite Z.div_small by lia. reflexivity.
Qed.

Lemma land_127_continuation m : 0 <= m < 128 -> Z.land (m + 128) 127 = m.
Proof.
  intros Hm. rewrite land_127_mod.
  replace (m + 128) with (m + 1 * 128) by lia.
  rewrite Z.mod_add by lia. apply Z.mod_small. exact Hm.
Qed.

End BitFacts.

(** ** The varint decoder inverts the encoder *)

Section VarintRoundTrip.

Import Coding.

Lemma wrap32_small z : 0 <= z < 2 ^ 32 -> wrap32 z = z.
Proof. intros Hz. unfold wrap32. apply Z.mod_small. exact Hz. Qed.

Lemma GetVarint32PtrFallback_cons groups shift result byte p' :
  GetVarint32PtrFallback (S groups) shift result (byte :: p')
  = if Z.land byte 128 =? 0
    then Some (p', Z.lor result (wrap32 (Z.shiftl byte shift)))
    else GetVarint32PtrFallback groups (shift + 7)
           (Z.lor result (wrap32 (Z.shiftl (Z.land byte 127) shift))) p'.
Proof. reflexivity. Qed.

(** The last byte of a varint: a group below 128 ends the decoding. *)
Lemma GetVarint32_last_group groups shift result v rest :
  0 <= shift -> 0 <= result < 2 ^ shift -> 0 <= v < 128 ->
  result + v * 2 ^ shift < 2 ^ 32 ->
  GetVarint32PtrFallback (S groups) shift result (v :: rest)
  = Some (rest, result + v * 2 ^ shift).
Proof.
  intros Hs Hr Hv Hlt. rewrite GetVarint32PtrFallback_cons.
  rewrite land_128_small by exact Hv. change (0 =? 0) with true. cbv iota.
  assert (0 < 2 ^ shift) by (apply Z.pow_pos_nonneg; lia).
  rewrite wrap32_small by (rewrite Z.shiftl_mul_pow2 by lia; nia).
  rewrite lor_disjoint_add by assumption. reflexivity.
Qed.

Lemma GetVarint32_EncodeVarint32 more :
  forall shift result v rest,
    0 <= shift -> 0 <= result < 2 ^ shift ->
    0 <= v < 2 ^ (7 * (Z.of_nat more + 1)) ->
    result + v * 2 ^ shift < 2 ^ 32 ->
    GetVarint32PtrFallback (S more) shift result
      (EncodeVarint32 more v ++ rest)
    = Some (rest, result + v * 2 ^ shift).
Proof.
  induction more as [|more IH]; intros shift result v rest Hs Hr Hv Hlt.
  - change (EncodeVarint32 0 v ++ rest) with (v :: rest).
    apply GetVarint32_last_group; assumption.
  - cbn [EncodeVarint32].
    destruct (Z.ltb_spec v 128) as [Hsmall|Hbig].
    + apply GetVarint32_last_group; try assumption. lia.
    + assert (Hpow : 0 < 2 ^ shift) by (apply Z.pow_pos_nonneg; lia).
      assert (Hm : 0 <= v mod 128 < 128) by (apply Z.mod_pos_bound; lia).
      assert (Hdm : v = 128 * (v / 128) + v mod 128)
        by (apply Z.div_mod; lia).
      rewrite continuation_byte by lia.
      rewrite <- app_comm_cons, GetVarint32PtrFallback_cons.
      rewrite land_128_continuation by exact Hm.
      change (128 =? 0) with false. cbv iota.
      rewrite land_127_continuation by exact Hm.
      rewrite wrap32_small
        by (rewrite Z.shiftl_mul_pow2 by lia; nia).
      rewrite lor_disjoint_add by assumption.
      rewrite Z.shiftr_div_pow2 by lia. change (2 ^ 7) with 128.
      assert (Hpow7 : 2 ^ (shift + 7) = 128 * 2 ^ shift)
        by (rewrite Z.pow_add_r by lia; change (2 ^ 7) with 128; lia).
      rewrite IH.
      * f_equal. f_equal. rewrite Hpow7. nia.
      * lia.
      * rewrite Hpow7. nia.
      * split; [apply Z.div_pos; lia|].
        apply Z.div_lt_upper_bound; [lia|].
        replace (7 * (Z.of_nat (S more) + 1))
          with (7 + 7 * (Z.of_nat more + 1)) in Hv by lia.
        rewrite Z.pow_add_r in Hv by lia.
        change (2 ^ 7) with 128 in Hv. lia.
      * rewrite Hpow7. nia.
Qed.

(** Decoding a varint followed by any payload returns the value and the
    payload. *)
Lemma GetVarint32Ptr_PutVarint32 n rest :
  0 <= n < 2 ^ 32 ->
  GetVarint32Ptr (PutVarint32 [] n ++ rest) = Some (rest, n).
Proof.
  intros Hn. unfold GetVarint32Ptr, PutVarint32. rewrite app_nil_l.
  rewrite GetVarint32_EncodeVarint32.
  - f_equal. f_equal. lia.
  - lia.
  - change (2 ^ 0) with 1. lia.
  - change (2 ^ (7 * (Z.of_nat 4 + 1))) with (2 ^ 35).
    assert (2 ^ 32 < 2 ^ 35) by reflexivity. lia.
  - lia.
Qed.

(** A varint is between one and five bytes long. *)
Lemma EncodeVarint32_length more v :
  (1 <= List.length (EncodeVarint32 more v) <= S more)%nat.
Proof.
  revert v. induction more as [|more IH]; intros v; cbn [EncodeVarint32].
  - simpl. lia.
  - destruct (v <? 128); [simpl; lia|].
    cbn [List.length]. specialize (IH (Z.shiftr v 7)). lia.
Qed.

Lemma DecodeSize_EncodeSize n rest :
  0 <= n < 2 ^ 32 ->
  DecodeSize (snd (EncodeSize n []) ++ rest) = Some (rest, n).
Proof.
  intros Hn. unfold DecodeSize, EncodeSize. cbn [snd].
  rewrite wrap32_small by exact Hn.
  rewrite GetVarint32Ptr_PutVarint32 by exact Hn. reflexivity.
Qed.

End VarintRoundTrip.

(** C1: for every representable length [n] (0 <= n <= 2^32 - 1), decoding the
    varint that the length framer produces returns [n] together with the
    number of bytes the encoding occupies:
    [decode_size (encode_size n) = (n, len (encode_size n))]. *)
Theorem decode_size_encode_size (n : Z) :
  0 <= n <= 2 ^ 32 - 1 ->
  decode_size (encode_size n) = Some (n, List.length (encode_size n)).
Proof.
  intros Hn. unfold decode_size, encode_size.
  pose proof (DecodeSize_EncodeSize n [] ltac:(lia)) as Hdec.
  rewrite app_nil_r in Hdec. rewrite Hdec.
  f_equal. f_equal. cbn [List.length]. lia.
Qed.

Lemma decode_size_encode_size_witness :
  0 <= 300 <= 2 ^ 32 - 1 /\
  decode_size (encode_size 300) = Some (300, List.length (encode_size 300)).
Proof.
  split; [lia | apply (decode_size_encode_size 300); lia].
Defined.

(** ** What a job lookup can do *)

Section AcquireJob.

Context {E : Type} `{QplEngine E}.

Implicit Types (w : World E) (c : job_cache) (path : qpl_path_t)
               (v : gmap (nat * nat) job_buffer).

Lemma acquire_job_acquired c tid path w :
  exists evs,
    acquired tid path (job_vector c w) (acquire_job c tid path w).1
      (job_vector c (acquire_job c tid path w).2) evs
    /\ trace (acquire_job c tid path w).2 = trace w ++ evs
    /\ job_vector (other_cache c) (acquire_job c tid path w).2
       = job_vector (other_cache c) w.
Proof.
  unfold acquire_job.
  destruct (job_vector c w !! (tid, path_index path)) as [job|] eqn:Hslot.
  { exists []. cbn [fst snd]. rewrite app_nil_r.
    split; [by constructor | done]. }
  destruct (qpl_get_job_size path (engine w)) as [[status size] e1].
  destruct (decide (status <> QPL_STS_OK)) as [Hst|Hst].
  { eexists. cbn [fst snd]. split; [|split; [reflexivity | by destruct c]].
    replace (job_vector c _) with (job_vector c w) at 2 by (by destruct c).
    by constructor. }
  apply dec_stable in Hst. subst status.
  destruct (make_unique_char_array size _) as [allocated e2].
  destruct allocated; cbn [negb].
  2:{ eexists. cbn [fst snd]. split; [|split].
      - replace (job_vector c _) with (job_vector c w) at 2 by (by destruct c).
        by constructor.
      - cbn. rewrite <- app_assoc. reflexivity.
      - by destruct c. }
  destruct (qpl_init_job path _ _) as [status e3].
  destruct (decide (status <> QPL_STS_OK)) as [Hst|Hst].
  { eexists. cbn [fst snd]. split; [|split].
    - match goal with |- acquired _ _ _ _ ?v' _ =>
        replace v' with (<[(tid, path_index path) :=
                             Build_job_buffer (next_addr w) size false]>
                           (job_vector c w)) by (by destruct c) end.
      eapply acquired_init_failed; [done | done | reflexivity].
    - destruct c; cbn; rewrite <- !app_assoc; reflexivity.
    - by destruct c. }
  apply dec_stable in Hst. subst status.
  eexists. cbn [fst snd]. split; [|split].
  - match goal with |- acquired _ _ _ _ ?v' _ =>
      replace v' with (<[(tid, path_index path) :=
                           Build_job_buffer (next_addr w) size true]>
                         (job_vector c w))
        by (destruct c; cbn; by rewrite insert_insert_eq) end.
    eapply acquired_initialized with (job := Build_job_buffer _ _ false);
      [done | reflexivity | reflexivity | reflexivity].
  - destruct c; cbn; rewrite <- !app_assoc; reflexivity.
  - by destruct c.
Qed.

(** A job that is in a vector stays there, whatever slot a lookup works
    on. *)
Lemma acquired_keeps tid path v r v' evs slot job :
  acquired tid path v r v' evs ->
  v !! slot = Some job ->
  v' !! slot = Some job.
Proof.
  intros Hacq Hjob.
  destruct Hacq as [ | | | ? ? ? Hnone | ? ? ? Hnone]; try done.
  - rewrite lookup_insert_ne; [done|]. intros <-. congruence.
  - rewrite lookup_insert_ne; [done|]. intros <-. congruence.
Qed.

(** A lookup that finds a job makes no call. *)
Lemma acquired_cached_inv tid path v r v' evs job :
  acquired tid path v r v' evs ->
  v !! (tid, path_index path) = Some job ->
  r = inr job /\ v' = v /\ evs = [].
Proof.
  intros Hacq Hjob.
  destruct Hacq as [job0 Hjob0 | | | |]; try congruence.
  split; [congruence | done].
Qed.

End AcquireJob.

(** ** What the retry loop can do *)

Section RetryLoop.

Context {E : Type} `{QplEngine E} {S : Type}.

Variables (execute : S -> qpl_status * S)
          (world_of : S -> World E) (total_of : S -> Z)
          (tid : nat) (c : job_cache) (buf : job_buffer) (job : qpl_job).

Lemma execute_while_busy_retried
    (Hexec : executes_job execute world_of total_of tid c buf job) fuel :
  forall s, exists rs,
    retried total_of fuel (execute_while_busy fuel execute s) rs
    /\ trace (world_of (final_state (execute_while_busy fuel execute s)))
       = trace (world_of s) ++ (CallExecuteJob tid c buf job <$> rs)
    /\ deflate_job_ (world_of (final_state (execute_while_busy fuel execute s)))
       = deflate_job_ (world_of s)
    /\ inflate_job_ (world_of (final_state (execute_while_busy fuel execute s)))
       = inflate_job_ (world_of s).
Proof.
  induction fuel as [|fuel IH]; intros s.
  - exists []. cbn. rewrite app_nil_r. split; [by constructor | done].
  - cbn [execute_while_busy].
    destruct (Hexec s) as (r & e & Hst & Hw & Htot).
    rewrite Hst.
    destruct (decide (exec_status r = QPL_STS_QUEUES_ARE_BUSY_ERR)) as [Hbusy|Hnot].
    + destruct (IH (execute s).2) as (rs & Hret & Htr & Hd & Hi).
      exists (r :: rs). rewrite Htr, Hd, Hi, Hw. cbn.
      rewrite <- app_assoc. split; [|done].
      inversion Hret as [s' rs' Hlen Hall | s' rs' r' Hlen Hall Hr' Ht']; subst.
      * constructor; [cbn; lia | by constructor].
      * rewrite app_comm_cons. constructor; [cbn; lia | by constructor | done | done].
    + exists [r]. cbn [final_state]. rewrite Hw. cbn. split; [|done].
      apply (retried_returned total_of (Datatypes.S fuel) _ [] r); [cbn; lia | constructor | done | done].
Qed.

End RetryLoop.

Section OperationLoops.

Context {E : Type} `{QplEngine E}.

Lemma Compress_execute_executes_job tid buf job :
  executes_job (Compress_execute tid buf job)
    (fun s : bytes * Z * World E => s.2) (fun s => s.1.2) tid Deflate buf job.
Proof.
  intros [[output t] w]. unfold Compress_execute.
  destruct (qpl_execute_job buf job (engine w)) as [r e].
  exists r, e. done.
Qed.

Lemma Uncompress_execute_executes_job tid buf job :
  executes_job (Uncompress_execute tid buf job)
    (fun s : Z * World E => s.2) (fun s => s.1) tid Inflate buf job.
Proof.
  intros [t w]. unfold Uncompress_execute.
  destruct (qpl_execute_job buf job (engine w)) as [r e].
  exists r, e. done.
Qed.

Lemma take_store_at off written (s : bytes) :
  take (Z.to_nat off) (store_at off written s) = take (Z.to_nat off) s.
Proof.
  unfold store_at. apply list_eq. intros i.
  destruct (decide (i < Z.to_nat off)%nat) as [Hlt|Hge].
  - rewrite !lookup_take_lt by done. by apply list_lookup_inserts_lt.
  - rewrite !lookup_take_ge by lia. done.
Qed.

Lemma length_store_at off written (s : bytes) :
  List.length (store_at off written s) = List.length s.
Proof. apply length_inserts. Qed.

(** The executions of [Compress] leave the size of [*output] and its
    bytes before the destination pointer as they were. *)
Lemma Compress_loop_output tid buf job fuel :
  forall output t (w : World E),
    let r := execute_while_busy fuel (Compress_execute tid buf job) (output, t, w) in
    List.length (final_state r).1.1 = List.length output
    /\ take (Z.to_nat (ptr_offset (next_out_ptr job))) (final_state r).1.1
       = take (Z.to_nat (ptr_offset (next_out_ptr job))) output.
Proof.
  induction fuel as [|fuel IH]; intros output t w; [done|].
  cbn [execute_while_busy]. unfold Compress_execute at 1 2 3.
  destruct (qpl_execute_job buf job (engine w)) as [r e].
  destruct (decide (exec_status r = QPL_STS_QUEUES_ARE_BUSY_ERR)).
  - cbn zeta. edestruct IH as [-> ->].
    by rewrite length_store_at, take_store_at.
  - cbn. by rewrite length_store_at, take_store_at.
Qed.

End OperationLoops.

(** ** Every run of [Compress] *)

Section CompressRuns.

Context {E : Type} `{QplEngine E}.

Variables (tid : nat) (options_ : IAACompressorOptions)
          (input : Slice) (output : bytes).

(** [Compress] in terms of the values above. *)
Lemma Compress_unfold fuel (w : World E) :
  Compress tid options_ input output fuel w
  = match acquire_job Deflate tid (execution_path options_) w with
    | (inl status, w) => Returns (status, Compress_resized input output) w
    | (inr buf, w) =>
        match execute_while_busy fuel
                (Compress_execute tid buf (Compress_configured options_ input output))
                (Compress_resized input output, 0, w) with
        | Spinning (_, _, w) => Spinning w
        | Returns status (out', total_out, w) =>
            if decide (status <> QPL_STS_OK)
            then Returns (Corruption (QPL_STATUS status), out') w
            else
              Returns
                (OK, string_resize
                       (wrap32 (Compress_header_length input output + total_out))
                       out')
                w
        end
    end.
Proof. reflexivity. Qed.

Lemma Compress_runs fuel (w : World E) :
  Compress_run tid options_ input output fuel (deflate_job_ w)
    (Compress tid options_ input output fuel w)
    (new_events w (Compress tid options_ input output fuel w))
  /\ trace (final_state (Compress tid options_ input output fuel w))
     = trace w ++ new_events w (Compress tid options_ input output fuel w)
  /\ inflate_job_ (final_state (Compress tid options_ input output fuel w))
     = inflate_job_ w.
Proof.
  assert (Hnew : forall (r : run (Status * bytes) (World E)) evs,
             trace (final_state r) = trace w ++ evs -> new_events w r = evs).
  { intros r evs Hr. unfold new_events. rewrite Hr. apply drop_app_length. }
  rewrite Compress_unfold.
  set (h := Compress_header_length input output).
  set (out1 := Compress_resized input output).
  set (job := Compress_configured options_ input output).
  destruct (acquire_job_acquired Deflate tid (execution_path options_) w)
    as (evs & Hacq & Htr & Hother).
  destruct (acquire_job Deflate tid (execution_path options_) w) as [[status|buf] w1];
    cbn [fst snd job_vector other_cache] in *.
  { rewrite (Hnew _ evs) by done. split; [by constructor | done]. }
  destruct (execute_while_busy_retried _ _ _ tid Deflate buf job
              (Compress_execute_executes_job tid buf job) fuel (out1, 0, w1))
    as (rs & Hret & Htr' & Hd & Hi).
  destruct (Compress_loop_output tid buf job fuel out1 0 w1) as [Hlen Htake].
  destruct (execute_while_busy fuel (Compress_execute tid buf job) (out1, 0, w1))
    as [status [[out' total_out] w']|[[out' total_out] w']];
    cbn [final_state fst snd] in *.
  - inversion Hret as [|s' rs0 r Hlt Hall Hr Htot]; subst.
    assert (Hfinal : forall x y : Status * bytes,
               trace (final_state
                        (if decide (exec_status r <> QPL_STS_OK)
                         then Returns x w' else Returns y w'))
               = trace w ++ evs
                   ++ (CallExecuteJob tid Deflate buf job <$> rs0 ++ [r])).
    { intros x y. destruct (decide _); cbn; by rewrite Htr', Htr, <- app_assoc. }
    rewrite (Hnew _ _ (Hfinal _ _)). cbn [fst snd] in Htot. rewrite Htot.
    split; [|split].
    + replace (if decide (exec_status r <> QPL_STS_OK)
               then Returns (Corruption (QPL_STATUS (exec_status r)), out') w'
               else Returns (OK, string_resize
                                   (wrap32 (h + wrap32 (exec_total_out r))) out') w')
        with (Returns
                (if decide (exec_status r <> QPL_STS_OK)
                 then (Corruption (QPL_STATUS (exec_status r)), out')
                 else (OK, string_resize
                             (wrap32 (h + wrap32 (exec_total_out r))) out'))
                w') by (by destruct (decide _)).
      apply Compress_executed; try done. by rewrite Hd.
    + apply Hfinal.
    + destruct (decide _); cbn; congruence.
  - inversion Hret as [s' rs0 Hlen0 Hall|]; subst.
    rewrite (Hnew _ (evs ++ (CallExecuteJob tid Deflate buf job <$> rs)))
      by (cbn; by rewrite Htr', Htr, <- app_assoc).
    split; [|split].
    + apply Compress_spinning; try done. by rewrite Hd.
    + cbn. by rewrite Htr', Htr, <- app_assoc.
    + cbn. congruence.
Qed.

End CompressRuns.

(** ** Every run of [Uncompress] *)

Section UncompressRuns.

Context {E : Type} `{QplEngine E}.

Variables (tid : nat) (options_ : IAACompressorOptions)
          (info : UncompressionInfo) (input : bytes)
          (output output_length : Z).

Lemma Uncompress_runs fuel (w : World E) :
  Uncompress_run tid options_ info input output output_length fuel (inflate_job_ w)
    (Uncompress tid options_ info input output output_length fuel w)
    (new_events w (Uncompress tid options_ info input output output_length fuel w))
  /\ trace (final_state (Uncompress tid options_ info input output output_length fuel w))
     = trace w
       ++ new_events w (Uncompress tid options_ info input output output_length fuel w)
  /\ deflate_job_ (final_state (Uncompress tid options_ info input output output_length fuel w))
     = deflate_job_ w.
Proof.
  assert (Hnew : forall (r : run (Status * Z * Z) (World E)) evs,
             trace (final_state r) = trace w ++ evs -> new_events w r = evs).
  { intros r evs Hr. unfold new_events. rewrite Hr. apply drop_app_length. }
  unfold Uncompress.
  destruct (DecodeSize input) as [[new_input n]|] eqn:Hdec.
  2:{ rewrite (Hnew _ []) by (cbn; by rewrite app_nil_r).
      rewrite app_nil_r. split; [by constructor | done]. }
  destruct (Allocate n (GetMemoryAllocator info)) as [p|] eqn:Halloc.
  2:{ rewrite (Hnew _ [CallAllocate tid n AllocThrows]) by done.
      split; [by econstructor | done]. }
  destruct (decide (p = 0)) as [->|Hp].
  { rewrite (Hnew _ [CallAllocate tid n (AllocReturns 0)]) by done.
    split; [by econstructor | done]. }
  set (w0 := log (CallAllocate tid n (AllocReturns p)) w).
  set (job := Uncompress_job input new_input p n).
  destruct (acquire_job_acquired Inflate tid (execution_path options_) w0)
    as (evs & Hacq & Htr & Hother).
  destruct (acquire_job Inflate tid (execution_path options_) w0) as [[status|buf] w1];
    cbn [fst snd job_vector other_cache] in *.
  { rewrite (Hnew _ (CallAllocate tid n (AllocReturns p) :: evs))
      by (cbn; rewrite Htr; cbn; by rewrite <- app_assoc).
    split; [by econstructor | split; [|done]].
    cbn. rewrite Htr. cbn. by rewrite <- app_assoc. }
  destruct (execute_while_busy_retried _ _ _ tid Inflate buf job
              (Uncompress_execute_executes_job tid buf job) fuel (0, w1))
    as (rs & Hret & Htr' & Hd & Hi).
  destruct (execute_while_busy fuel (Uncompress_execute tid buf job) (0, w1))
    as [status [total_out w']|[total_out w']];
    cbn [final_state fst snd] in *.
  - inversion Hret as [|s' rs0 r Hlt Hall Hr Htot]; subst.
    cbn [fst snd] in Htot. subst total_out.
    assert (Hfinal : forall x y z : Status * Z * Z,
               trace (final_state
                        (if decide (exec_status r <> QPL_STS_OK)
                         then Returns x w'
                         else if decide (wrap32 (exec_total_out r) <> n)
                              then Returns y w' else Returns z w'))
               = trace w ++ CallAllocate tid n (AllocReturns p)
                   :: evs ++ (CallExecuteJob tid Inflate buf job <$> rs0 ++ [r])).
    { intros x y z. repeat destruct (decide _); cbn;
        rewrite Htr', Htr; cbn; by rewrite <- !app_assoc. }
    rewrite (Hnew _ _ (Hfinal _ _ _)).
    split; [|split].
    + match goal with |- Uncompress_run _ _ _ _ _ _ _ _ ?run _ =>
        replace run with
          (Returns
             (if decide (exec_status r <> QPL_STS_OK)
              then (Corruption (QPL_STATUS (exec_status r)), p, output_length)
              else if decide (wrap32 (exec_total_out r) <> n)
              then (Corruption "size mismatch", p, output_length)
              else (OK, p, wrap32 (exec_total_out r)))
             w') by (by repeat destruct (decide _)) end.
      eapply Uncompress_executed; try done. by rewrite Hi.
    + apply Hfinal.
    + repeat destruct (decide _); cbn; by rewrite Hd, Hother.
  - inversion Hret as [s' rs0 Hlen0 Hall|]; subst.
    rewrite (Hnew _ (CallAllocate tid n (AllocReturns p)
                     :: evs ++ (CallExecuteJob tid Inflate buf job <$> rs)))
      by (cbn; rewrite Htr', Htr; cbn; by rewrite <- !app_assoc).
    split; [|split].
    + eapply Uncompress_spinning; try done. by rewrite Hi.
    + cbn. rewrite Htr', Htr. cbn. by rewrite <- !app_assoc.
    + cbn. by rewrite Hd, Hother.
Qed.

End UncompressRuns.

(** ** Events of a run *)

Section RunEvents.

Context {E : Type} `{QplEngine E}.

Lemma executions_app evs1 evs2 :
  executions (evs1 ++ evs2) = executions evs1 ++ executions evs2.
Proof. apply omap_app. Qed.

Lemma executions_execute tid c buf job rs :
  executions (CallExecuteJob tid c buf job <$> rs)
  = (fun r => (c, buf, job, r)) <$> rs.
Proof. induction rs as [|r rs IH]; [done|]. cbn. by f_equal. Qed.

Lemma acquired_executions tid path v r v' evs :
  acquired tid path v r v' evs -> executions evs = [].
Proof. by destruct 1. Qed.

Lemma filter_setup_execute tid c buf job rs :
  filter is_setup_event (CallExecuteJob tid c buf job <$> rs) = [].
Proof. induction rs as [|r rs IH]; [done|]. cbn. done. Qed.

Lemma filter_deallocate_execute tid c buf job rs :
  filter is_deallocate_event (CallExecuteJob tid c buf job <$> rs) = [].
Proof. induction rs as [|r rs IH]; [done|]. cbn. done. Qed.

Lemma acquired_no_deallocate tid path v r v' evs :
  acquired tid path v r v' evs -> filter is_deallocate_event evs = [].
Proof. by destruct 1. Qed.

(** The executions of a run of [Compress] all work on one job buffer,
    with the job configured from the input. *)
Lemma Compress_executions tid options_ input output fuel (w : World E) :
  exists buf rs,
    executions (new_events w (Compress tid options_ input output fuel w))
    = (fun r => (Deflate, buf, Compress_configured options_ input output, r)) <$> rs.
Proof.
  destruct (Compress_runs tid options_ input output fuel w) as (Hrun & _ & _).
  destruct Hrun as [status evs w' Hacq | buf evs rs w' Hacq _ _
                   | buf evs rs r out' w' Hacq _ _ _ _ _].
  - exists (Build_job_buffer 0 0 false), []. by eapply acquired_executions.
  - exists buf, rs. rewrite executions_app, executions_execute.
    by erewrite acquired_executions.
  - exists buf, (rs ++ [r]). rewrite executions_app, executions_execute.
    by erewrite acquired_executions.
Qed.

Lemma acquired_ends_before_execution (c : job_cache) (tid : nat)
    (path : qpl_path_t) (v v' : gmap (nat * nat) job_buffer) status evs :
  acquired tid path v (inl status) v' evs ->
  ends_before_execution c evs status.
Proof.
  inversion 1; subst.
  - by eapply ends_at_sizing.
  - by eapply ends_at_make_unique.
  - by eapply ends_at_init.
Qed.


(** A run of [Compress] with at least one execution allowed has returned
    or has executed. *)
Lemma Compress_progress tid options_ input output fuel (w : World E) :
  (0 < fuel)%nat ->
  is_Some (returned (Compress tid options_ input output fuel w))
  \/ executions (new_events w (Compress tid options_ input output fuel w)) <> [].
Proof.
  intros Hfuel.
  destruct (Compress_runs tid options_ input output fuel w) as (Hrun & _ & _).
  destruct Hrun as [status evs w' Hacq | buf evs rs w' Hacq Hlen _
                   | buf evs rs r out' w' Hacq _ _ _ _ _];
    [left; by eexists | right | left; by eexists].
  rewrite executions_app, executions_execute.
  erewrite acquired_executions by done.
  destruct rs; [cbn in Hlen; lia | done].
Qed.

(** What a run of [Compress] that has returned hands back.  A failure is
    the failure of a call made before the loop or of the last execution,
    and comes with the string as resized, the bytes before the header
    length kept; success comes after a last execution that succeeded, with
    that string resized to the header and [job->total_out]. *)
Lemma Compress_returned tid options_ input output fuel (w : World E) status out :
  let r := Compress tid options_ input output fuel w in
  let h := Z.to_nat (Compress_header_length input output) in
  returned r = Some (status, out) ->
  exists out',
    List.length out' = List.length (Compress_resized input output)
    /\ take h out' = take h (Compress_resized input output)
    /\ ((status <> OK /\ out = out'
         /\ (ends_before_execution Deflate (new_events w r) status
             \/ exists x,
                  last (executions (new_events w r)) = Some x
                  /\ exec_status x.2 <> QPL_STS_OK
                  /\ status = Corruption (QPL_STATUS (exec_status x.2))))
        \/ (status = OK
            /\ exists x,
                 last (executions (new_events w r)) = Some x
                 /\ exec_status x.2 = QPL_STS_OK
                 /\ out = string_resize
                            (wrap32 (Compress_header_length input output
                                     + wrap32 (exec_total_out x.2))) out')).
Proof.
  intros r h Hret. subst r h.
  destruct (Compress_runs tid options_ input output fuel w) as (Hrun & _ & _).
  destruct Hrun as [status' evs w' Hacq | buf evs rs w' Hacq _ _
                   | buf evs rs r out' w' Hacq _ _ _ Hlen Htake];
    cbn [returned] in Hret; [| done |].
  - simplify_eq. exists (Compress_resized input output).
    split; [done|]. split; [done|]. left.
    split; [by inversion Hacq|]. split; [done|]. left.
    by eapply acquired_ends_before_execution.
  - exists out'. split; [done|]. split; [done|].
    assert (Hlast : last (executions
                            (evs ++ (CallExecuteJob tid Deflate buf
                                       (Compress_configured options_ input output)
                                     <$> rs ++ [r])))
                    = Some (Deflate, buf,
                            Compress_configured options_ input output, r)).
    { rewrite executions_app, executions_execute.
      erewrite acquired_executions by done.
      by rewrite app_nil_l, fmap_app, list_fmap_singleton, last_snoc. }
    destruct (decide (exec_status r <> QPL_STS_OK)) as [Hne|Hok]; simplify_eq.
    + left. split; [done|]. split; [done|]. right. eauto.
    + right. split; [done|]. eexists. split; [exact Hlast|].
      split; [|done]. cbn [snd]. by destruct (decide (exec_status r = QPL_STS_OK)).
Qed.

End RunEvents.

(** ** The worst-case output size *)

Lemma Compress_output_length_worst_case h n :
  0 <= h < 2 ^ 32 -> 0 <= n < 2 ^ 63 ->
  Compress_output_length h n
  = Z.min (h + n + 5 * ceil_div n 65535) (2 ^ 32 - 1).
Proof.
  intros Hh Hn. unfold Compress_output_length, wrap64, UINT32_MAX, ceil_div.
  change (2 ^ 64) with 18446744073709551616.
  change (2 ^ 63) with 9223372036854775808 in Hn.
  change (2 ^ 32) with 4294967296 in *.
  destruct (decide (n mod 65535 <> 0)) as [Hr|Hr];
    [|apply dec_stable in Hr];
    destruct (decide _) as [Hc|Hc]; revert Hc Hr;
    Z.div_mod_to_equations; lia.
Qed.

Lemma encode_size_length n :
  (1 <= List.length (encode_size n) <= 5)%nat.
Proof.
  unfold encode_size, EncodeSize, Coding.PutVarint32. cbn [snd app].
  apply EncodeVarint32_length.
Qed.

Lemma Compress_header_length_empty input :
  Compress_header_length input [] = Z.of_nat (List.length (encode_size (size_ input))).
Proof.
  unfold Compress_header_length, encode_size, EncodeSize. cbn [fst snd].
  apply wrap32_small.
  pose proof (encode_size_length (size_ input)) as Hlen.
  unfold encode_size, EncodeSize in Hlen. cbn [snd] in Hlen.
  change (2 ^ 32) with 4294967296. lia.
Qed.

(** The destination every execution of [Compress] is given: the resized
    string, from the end of the header on. *)
Lemma Compress_destination {E : Type} `{QplEngine E}
    (tid : nat) (options_ : IAACompressorOptions) (input : Slice)
    (output : bytes) (fuel : nat) (w : World E) :
  Forall (fun x =>
            ptr_object (next_out_ptr x.1.2) = OutputString
            /\ ptr_extent (next_out_ptr x.1.2)
               = Z.of_nat (List.length (Compress_resized input output))
            /\ ptr_offset (next_out_ptr x.1.2) = Compress_header_length input output
            /\ available_out x.1.2
               = wrap32 (Compress_capacity input output
                         - Compress_header_length input output))
         (executions (new_events w (Compress tid options_ input output fuel w))).
Proof.
  destruct (Compress_executions tid options_ input output fuel w) as (buf & rs & ->).
  apply Forall_fmap, Forall_forall. by intros res _.
Qed.

(** The capacity computed for an output string that starts empty. *)
Lemma Compress_capacity_empty (input : Slice) :
  0 <= size_ input < 2 ^ 63 ->
  Compress_capacity input []
  = Z.min (Z.of_nat (List.length (encode_size (size_ input))) + size_ input
           + 5 * ceil_div (size_ input) 65535) (2 ^ 32 - 1).
Proof.
  intros Hn. pose proof (encode_size_length (size_ input)) as Hh.
  unfold Compress_capacity. rewrite Compress_header_length_empty.
  apply Compress_output_length_worst_case; [|done].
  change (2 ^ 32) with 4294967296. lia.
Qed.



(** ** The busy status *)

Section BusyRetry.

Context {E : Type} `{QplEngine E}.








End BusyRetry.


(** ** Failures of [Uncompress] *)

Section UncompressFailures.

Context {E : Type} `{QplEngine E}.

Lemma GetVarint32PtrFallback_truncated input :
  truncated_prefix input ->
  forall groups shift result,
    Coding.GetVarint32PtrFallback groups shift result input = None.
Proof.
  induction 1 as [|byte input Hbyte _ IH]; intros groups shift result.
  - by destruct groups.
  - destruct groups as [|groups]; [done|].
    cbn [Coding.GetVarint32PtrFallback].
    destruct (Z.eqb_spec (Z.land byte 128) 0) as [Heq|_]; [done|].
    apply IH.
Qed.

Lemma DecodeSize_truncated input :
  truncated_prefix input -> DecodeSize input = None.
Proof.
  intros Htrunc. unfold DecodeSize, Coding.GetVarint32Ptr.
  by rewrite GetVarint32PtrFallback_truncated.
Qed.

Lemma executions_allocate tid n result evs :
  executions (CallAllocate tid n result :: evs) = executions evs.
Proof. reflexivity. Qed.

Lemma last_execution_busy (c : job_cache) (buf : job_buffer) (job : qpl_job)
    rs x :
  Forall busy rs ->
  last ((fun r => (c, buf, job, r)) <$> rs) = Some x ->
  exec_status x.2 = QPL_STS_QUEUES_ARE_BUSY_ERR.
Proof.
  intros Hall Hlast. rewrite fmap_last in Hlast.
  destruct (last rs) as [r|] eqn:Hr; [|done]. cbn in Hlast.
  apply last_Some_elem_of in Hr. simplify_eq. cbn.
  by eapply (proj1 (Forall_forall _ _) Hall).
Qed.

End UncompressFailures.

(** C4: for every input whose length prefix is empty or cut in the middle
    of the varint (a 0-byte input included), [Uncompress] returns the
    Corruption for the size decoding error, and makes no call before it:
    the memory allocator is not invoked, the state and the caller's output
    pointer and length are as they were. *)
Theorem Uncompress_truncated_prefix_fails {E : Type} `{QplEngine E}
    (tid : nat) (options_ : IAACompressorOptions) (info : UncompressionInfo)
    (input : bytes) (output output_length : Z) (fuel : nat) (w : World E) :
  truncated_prefix input ->
  let r := Uncompress tid options_ info input output output_length fuel w in
  r = Returns (Corruption "size decoding error", output, output_length) w
  /\ filter is_allocator_event (new_events w r) = [].
Proof.
  intros Htrunc r. subst r. unfold new_events, Uncompress.
  rewrite DecodeSize_truncated by done. cbn [final_state].
  by rewrite drop_all.
Qed.

Lemma Uncompress_truncated_prefix_fails_witness :
  truncated_prefix [172] /\
  Uncompress 0 (default_options qpl_path_software)
    {| GetMemoryAllocator := fun _ => AllocReturns 4096 |} [172] 0 0 1
    (Scripted.fresh (Scripted.healthy [] (Scripted.result 0 300 [])))
  = Returns (Corruption "size decoding error", 0, 0)
      (Scripted.fresh (Scripted.healthy [] (Scripted.result 0 300 []))).
Proof.
  assert (Htrunc : truncated_prefix [172])
    by (repeat constructor; discriminate).
  split; [exact Htrunc|].
  apply (Uncompress_truncated_prefix_fails (E := Scripted.script) 0
           (default_options qpl_path_software)
           {| GetMemoryAllocator := fun _ => AllocReturns 4096 |} [172] 0 0 1
           (Scripted.fresh (Scripted.healthy [] (Scripted.result 0 300 [])))
           Htrunc).
Defined.

(** C5: for every framed block whose prefix decodes, an allocator that
    fails makes [Uncompress] return the Corruption for the memory allocation
    error, whether it fails by returning a null pointer or by throwing
    [std::bad_alloc]; the [Status] the caller sees is the same in both
    cases. *)
Theorem Uncompress_allocator_failure {E : Type} `{QplEngine E}
    (tid : nat) (options_ : IAACompressorOptions)
    (info_null info_throw : UncompressionInfo)
    (input new_input : bytes) (n output output_length : Z)
    (fuel : nat) (w : World E) :
  DecodeSize input = Some (new_input, n) ->
  GetMemoryAllocator info_null n = AllocReturns 0 ->
  GetMemoryAllocator info_throw n = AllocThrows ->
  (fun x => x.1.1)
    <$> returned (Uncompress tid options_ info_null input output output_length fuel w)
  = Some (Corruption "memory allocation error")
  /\ (fun x => x.1.1)
       <$> returned (Uncompress tid options_ info_throw input output output_length fuel w)
     = Some (Corruption "memory allocation error").
Proof.
  intros Hdec Hnull Hthrow. unfold Uncompress, Allocate.
  rewrite Hdec, Hnull, Hthrow. split; [|done].
  by destruct (decide (0 = 0)).
Qed.

Lemma Uncompress_allocator_failure_witness :
  (fun x : Status * Z * Z => x.1.1)
    <$> returned
          (Uncompress 0 (default_options qpl_path_software)
             {| GetMemoryAllocator := fun _ => AllocReturns 0 |}
             [172; 2; 7; 7] 0 0 1
             (Scripted.fresh (Scripted.healthy [] (Scripted.result 0 300 []))))
  = Some (Corruption "memory allocation error")
  /\ (fun x : Status * Z * Z => x.1.1)
       <$> returned
             (Uncompress 0 (default_options qpl_path_software)
                {| GetMemoryAllocator := fun _ => AllocThrows |}
                [172; 2; 7; 7] 0 0 1
                (Scripted.fresh (Scripted.healthy [] (Scripted.result 0 300 []))))
     = Some (Corruption "memory allocation error").
Proof.
  apply (Uncompress_allocator_failure (E := Scripted.script) 0
           (default_options qpl_path_software)
           {| GetMemoryAllocator := fun _ => AllocReturns 0 |}
           {| GetMemoryAllocator := fun _ => AllocThrows |}
           [172; 2; 7; 7] [7; 7] 300 0 0 1
           (Scripted.fresh (Scripted.healthy [] (Scripted.result 0 300 []))));
    reflexivity.
Defined.

(** C6: for every decompression of a block whose prefix decodes to [n], if
    the engine reports success -- the last [qpl_execute_job] call returns
    [QPL_STS_OK] -- then [Uncompress] returns: the Corruption for the size
    mismatch when [job->total_out] differs from [n], leaving the caller's
    length as it was, and success with the allocated pointer and the length
    [n] when they are equal.  Conversely a call returns success only after
    an execution that returned [QPL_STS_OK] with [job->total_out] equal to
    the decoded size, and then hands out the allocated pointer and that
    length. *)
Theorem Uncompress_checks_written_size {E : Type} `{QplEngine E}
    (tid : nat) (options_ : IAACompressorOptions) (info : UncompressionInfo)
    (input new_input : bytes) (n output output_length : Z)
    (fuel : nat) (w : World E) :
  DecodeSize input = Some (new_input, n) ->
  let r := Uncompress tid options_ info input output output_length fuel w in
  (forall x,
      last (executions (new_events w r)) = Some x ->
      exec_status x.2 = QPL_STS_OK ->
      exists p,
        Allocate n (GetMemoryAllocator info) = AllocReturns p /\ p <> 0
        /\ returned r
           = Some (if decide (wrap32 (exec_total_out x.2) = n)
                   then (OK, p, n)
                   else (Corruption "size mismatch", p, output_length)))
  /\ (forall p len,
         returned r = Some (OK, p, len) ->
         exists x,
           last (executions (new_events w r)) = Some x
           /\ exec_status x.2 = QPL_STS_OK
           /\ wrap32 (exec_total_out x.2) = n
           /\ len = n
           /\ Allocate n (GetMemoryAllocator info) = AllocReturns p).
Proof.
  intros Hdec r. subst r.
  destruct (Uncompress_runs tid options_ info input output output_length fuel w)
    as (Hrun & _ & _).
  destruct Hrun as [w' Hnone _ | ? ? w' _ _ _ | ? ? w' _ _ _
                   | ? ? p status evs w' _ _ _ Hacq
                   | ? ? p buf evs rs w' _ _ _ Hacq Hlen Hall
                   | new_input' n' p buf evs rs r w' Hdec' Halloc Hp Hacq Hlen Hall Hr];
    try rewrite executions_allocate.
  - congruence.
  - split; [intros x [=]|intros p len [=]].
  - split; [intros x [=]|intros p len [=]].
  - erewrite acquired_executions by done.
    split; [intros x [=]|]. intros p' len [= -> -> ->].
    exfalso. inversion Hacq.
  - rewrite executions_app, executions_execute.
    erewrite acquired_executions by done. rewrite app_nil_l.
    split; [|intros p' len [=]].
    intros x Hlast Hok. exfalso.
    apply last_execution_busy in Hlast; [|done].
    apply QPL_STS_OK_not_busy. congruence.
  - rewrite executions_app, executions_execute.
    erewrite acquired_executions by done. rewrite app_nil_l.
    rewrite fmap_app, list_fmap_singleton, last_snoc. simplify_eq. split.
    + intros x [= <-] Hok. cbn in Hok |- *. exists p.
      split; [done|]. split; [done|]. cbn.
      destruct (decide (exec_status r <> QPL_STS_OK)); [done|].
      destruct (decide (wrap32 (exec_total_out r) <> n)) as [Hne|Heq].
      * by destruct (decide (wrap32 (exec_total_out r) = n)).
      * apply dec_stable in Heq.
        destruct (decide (wrap32 (exec_total_out r) = n)); [|done].
        by rewrite Heq.
    + intros p' len Hret. cbn in Hret.
      destruct (decide (exec_status r <> QPL_STS_OK)) as [|Hok]; [by simplify_eq|].
      destruct (decide (wrap32 (exec_total_out r) <> n)) as [|Heq]; [by simplify_eq|].
      apply dec_stable in Hok, Heq. simplify_eq.
      eexists. split; [done|]. cbn. done.
Qed.

Lemma Uncompress_checks_written_size_witness :
  DecodeSize [172; 2; 7; 7] = Some ([7; 7], 300) /\
  returned
    (Uncompress 0 (default_options qpl_path_software)
       {| GetMemoryAllocator := fun _ => AllocReturns 4096 |}
       [172; 2; 7; 7] 0 0 1
       (Scripted.fresh (Scripted.healthy [] (Scripted.result 0 299 []))))
  = Some (Corruption "size mismatch", 4096, 0).
Proof.
  split; [reflexivity|].
  pose proof (proj1 (Uncompress_checks_written_size (E := Scripted.script) 0
                       (default_options qpl_path_software)
                       {| GetMemoryAllocator := fun _ => AllocReturns 4096 |}
                       [172; 2; 7; 7] [7; 7] 300 0 0 1
                       (Scripted.fresh (Scripted.healthy [] (Scripted.result 0 299 [])))
                       eq_refl)
                (Inflate,
                 {| buf_addr := 0; buf_size := 4096; buf_initialized := true |},
                 Uncompress_job [172; 2; 7; 7] [7; 7] 4096 300,
                 Scripted.result 0 299 [])) as Hcheck.
  destruct Hcheck as (p & Halloc & _ & Hret);
    [vm_compute; reflexivity | reflexivity |].
  injection Halloc as <-. exact Hret.
Defined.

(** C9: when [Uncompress] fails after the output buffer has been allocated
    -- on an error status of the execution, on a size mismatch, or while
    getting the job -- it does not free the buffer: the allocation is
    among the calls it made, no deallocation is, and the caller's output
    pointer has been set to the allocated buffer while the caller's length
    is left as it was. *)
Theorem Uncompress_failure_leaves_buffer {E : Type} `{QplEngine E}
    (tid : nat) (options_ : IAACompressorOptions) (info : UncompressionInfo)
    (input new_input : bytes) (n p output output_length : Z)
    (fuel : nat) (w : World E) (status : Status) (out len : Z) :
  DecodeSize input = Some (new_input, n) ->
  Allocate n (GetMemoryAllocator info) = AllocReturns p ->
  p <> 0 ->
  let r := Uncompress tid options_ info input output output_length fuel w in
  returned r = Some (status, out, len) ->
  status <> OK ->
  out = p
  /\ len = output_length
  /\ head (new_events w r) = Some (CallAllocate tid n (AllocReturns p))
  /\ filter is_deallocate_event (new_events w r) = [].
Proof.
  intros Hdec Halloc Hp r Hret Hne. subst r.
  destruct (Uncompress_runs tid options_ info input output output_length fuel w)
    as (Hrun & _ & _).
  destruct Hrun as [w' Hnone _ | ? ? w' ? Hthrow _ | ? ? w' ? Hnull _
                   | ? ? p' status' evs w' ? ? _ Hacq
                   | ? ? p' buf evs rs w' ? ? _ Hacq Hlen Hall
                   | ? ? p' buf evs rs r w' ? ? _ Hacq Hlen Hall Hr];
    simplify_eq; try congruence.
  - assert (p' = p) as -> by congruence.
    cbn in Hret. simplify_eq.
    split; [done|]. split; [done|]. split; [done|].
    rewrite filter_cons_False by (cbn; auto).
    by eapply acquired_no_deallocate.
  - assert (p' = p) as -> by congruence.
    cbn in Hret.
    assert (out = p /\ len = output_length) as [-> ->].
    { repeat destruct (decide _); by simplify_eq. }
    split; [done|]. split; [done|]. split; [done|].
    rewrite filter_cons_False by (cbn; auto).
    rewrite filter_app, filter_deallocate_execute, app_nil_r.
    by eapply acquired_no_deallocate.
Qed.

Lemma Uncompress_failure_leaves_buffer_witness :
  let info := {| GetMemoryAllocator := fun _ => AllocReturns 4096 |} in
  let w := Scripted.fresh (Scripted.healthy [] (Scripted.result 0 299 [])) in
  let r := Uncompress 0 (default_options qpl_path_software) info
             [172; 2; 7; 7] 0 0 1 w in
  returned r = Some (Corruption "size mismatch", 4096, 0)
  /\ head (new_events w r) = Some (CallAllocate 0 300 (AllocReturns 4096))
  /\ filter is_deallocate_event (new_events w r) = [].
Proof.
  intros info w r.
  assert (Hret : returned r = Some (Corruption "size mismatch", 4096, 0))
    by (vm_compute; reflexivity).
  split; [exact Hret|].
  apply (Uncompress_failure_leaves_buffer (H := Scripted.scripted_engine) 0
           (default_options qpl_path_software) info
           [172; 2; 7; 7] [7; 7] 300 4096 0 0 1 w
           (Corruption "size mismatch") 4096 0);
    [reflexivity | reflexivity | discriminate | exact Hret | discriminate].
Defined.

(** ** Inputs of 4 GiB and more *)

Section LongInputs.

Context {E : Type} `{QplEngine E}.

Lemma encode_size_wraps n : encode_size n = encode_size (n mod 2 ^ 32).
Proof.
  unfold encode_size, EncodeSize, wrap32. cbn [snd].
  by rewrite Z.mod_mod.
Qed.

(** The string handed to the engine is the prefix followed by zeros. *)
Lemma Compress_resized_empty input :
  Z.of_nat (List.length (encode_size (size_ input))) <= Compress_capacity input [] ->
  Compress_resized input []
  = encode_size (size_ input)
    ++ replicate (Z.to_nat (Compress_capacity input [])
                  - List.length (encode_size (size_ input))) 0.
Proof.
  intros Hle. unfold Compress_resized, string_resize.
  change (EncodeSize (size_ input) []).2 with (encode_size (size_ input)).
  apply resize_ge. lia.
Qed.

Lemma decode_size_prefixed n rest :
  0 <= n < 2 ^ 32 ->
  decode_size (encode_size n ++ rest) = Some (n, List.length (encode_size n)).
Proof.
  intros Hn. unfold decode_size, encode_size.
  rewrite DecodeSize_EncodeSize by done.
  f_equal. f_equal. rewrite length_app. lia.
Qed.

(** What a returning run leaves of the header bytes of the string it
    resized. *)
Lemma Compress_returns_header tid options_ input output fuel (w : World E)
    status out (i : nat) :
  returned (Compress tid options_ input output fuel w) = Some (status, out) ->
  (Z.of_nat i < Compress_header_length input output) ->
  (i < List.length (Compress_resized input output))%nat ->
  (i < List.length out)%nat ->
  out !! i = Compress_resized input output !! i.
Proof.
  intros Hret Hi Hres Hlen.
  destruct (Compress_runs tid options_ input output fuel w) as (Hrun & _ & _).
  destruct Hrun as [status' evs w' Hacq | buf evs rs w' Hacq _ _
                   | buf evs rs r out' w' Hacq _ _ _ Hlen' Htake];
    cbn in Hret; [by simplify_eq | done |].
  assert (Hout' : out' !! i = Compress_resized input output !! i).
  { rewrite <- (lookup_take_lt out' (Z.to_nat (Compress_header_length input output)))
      by lia.
    rewrite Htake. apply lookup_take_lt. lia. }
  destruct (decide (exec_status r <> QPL_STS_OK)); simplify_eq; [done|].
  unfold string_resize in *. rewrite length_resize in Hlen.
  rewrite lookup_resize; [done | lia |].
  by rewrite Hlen'.
Qed.

End LongInputs.

(** C10: for every input block of at least [2^32] bytes, [Compress] has no
    failure or clamping of its own for the length prefix: the prefix it
    writes is the varint of the input length reduced modulo [2^32] (the
    [size_t] length is converted to the [uint32_t] parameter of
    [PutVarint32]), which decodes to a length other than the input's; only
    the capacity of the output string is clamped to [2^32 - 1].  The engine
    is executed on that string, and when its last execution succeeds
    [Compress] returns success; whatever it returns, the header bytes of
    the returned string are those of the wrapped prefix.  A call that
    returns a failure returns the failure of an engine call -- one made
    before the loop, or the last execution -- and the whole string of
    [2^32 - 1] bytes, which starts with the wrapped prefix and decodes to
    the wrapped length; a call that returns success does so after a last
    execution that succeeded, with the string cut to the header and
    [job->total_out], which starts with the wrapped prefix and decodes to
    the wrapped length whenever it is not shorter than the prefix; and with
    at least one execution allowed the call has either returned or
    executed.  The length of a block in memory is below [2^63]. *)
Theorem Compress_long_input_wraps_prefix {E : Type} `{QplEngine E}
    (tid : nat) (options_ : IAACompressorOptions) (input : Slice)
    (fuel : nat) (w : World E) :
  2 ^ 32 <= size_ input < 2 ^ 63 ->
  let n := size_ input in
  let prefix := encode_size (n mod 2 ^ 32) in
  let r := Compress tid options_ input [] fuel w in
  take (List.length prefix) (Compress_resized input []) = prefix
  /\ decode_size (Compress_resized input [])
     = Some (n mod 2 ^ 32, List.length prefix)
  /\ n mod 2 ^ 32 <> n
  /\ Z.of_nat (List.length (Compress_resized input [])) = 2 ^ 32 - 1
  /\ Forall (fun x =>
               ptr_extent (next_out_ptr x.1.2) = 2 ^ 32 - 1
               /\ ptr_offset (next_out_ptr x.1.2) = Z.of_nat (List.length prefix))
            (executions (new_events w r))
  /\ (forall x,
         last (executions (new_events w r)) = Some x ->
         exec_status x.2 = QPL_STS_OK ->
         exists out, returned r = Some (OK, out))
  /\ (forall status out (i : nat),
         returned r = Some (status, out) ->
         (i < List.length prefix)%nat -> (i < List.length out)%nat ->
         out !! i = prefix !! i)
  /\ (forall status out,
         returned r = Some (status, out) -> status <> OK ->
         Z.of_nat (List.length out) = 2 ^ 32 - 1
         /\ take (List.length prefix) out = prefix
         /\ decode_size out = Some (n mod 2 ^ 32, List.length prefix)
         /\ (ends_before_execution Deflate (new_events w r) status
             \/ exists x,
                  last (executions (new_events w r)) = Some x
                  /\ exec_status x.2 <> QPL_STS_OK
                  /\ status = Corruption (QPL_STATUS (exec_status x.2))))
  /\ (forall out,
         returned r = Some (OK, out) ->
         exists x,
           last (executions (new_events w r)) = Some x
           /\ exec_status x.2 = QPL_STS_OK
           /\ Z.of_nat (List.length out)
              = (Z.of_nat (List.length prefix) + exec_total_out x.2 mod 2 ^ 32)
                mod 2 ^ 32
           /\ ((List.length prefix <= List.length out)%nat ->
               take (List.length prefix) out = prefix
               /\ decode_size out = Some (n mod 2 ^ 32, List.length prefix)))
  /\ ((0 < fuel)%nat ->
      is_Some (returned r) \/ executions (new_events w r) <> []).
Proof.
  intros Hn n prefix r.
  assert (Hprefix : encode_size n = prefix) by apply encode_size_wraps.
  pose proof (encode_size_length (n mod 2 ^ 32)) as Hlen. fold prefix in Hlen.
  assert (Hcap : Compress_capacity input [] = 2 ^ 32 - 1).
  { rewrite Compress_capacity_empty by lia. fold n. rewrite Hprefix.
    unfold ceil_div. change (2 ^ 32) with 4294967296 in *.
    assert (0 <= (n + 65535 - 1) / 65535) by (apply Z.div_pos; lia). lia. }
  assert (Hsize : Z.of_nat (List.length (Compress_resized input [])) = 2 ^ 32 - 1).
  { unfold Compress_resized, string_resize. rewrite length_resize, Hcap.
    change (2 ^ 32) with 4294967296. lia. }
  assert (Hres : Compress_resized input []
                 = prefix ++ replicate (Z.to_nat (Compress_capacity input [])
                                        - List.length prefix) 0).
  { rewrite <- Hprefix. apply Compress_resized_empty.
    fold n. rewrite Hprefix.
    unfold Compress_resized, string_resize in Hsize.
    rewrite length_resize in Hsize.
    change (2 ^ 32) with 4294967296 in *. lia. }
  assert (Hmod : 0 <= n mod 2 ^ 32 < 2 ^ 32) by (apply Z.mod_pos_bound; lia).
  assert (Htake : take (List.length prefix) (Compress_resized input []) = prefix).
  { rewrite Hres. apply take_app_length. }
  split; [exact Htake|]. split.
  { rewrite Hres. by apply decode_size_prefixed. }
  split; [change (2 ^ 32) with 4294967296 in *; lia|].
  split; [exact Hsize|]. split.
  { subst r. eapply Forall_impl; [apply Compress_destination|].
    intros x (_ & Hext & Hoff & _).
    rewrite Hext, Hoff, Hsize, Compress_header_length_empty.
    fold n. by rewrite Hprefix. }
  split; [|split; [|split; [|split]]].
  - intros x Hlast Hok. subst r.
    destruct (Compress_runs tid options_ input [] fuel w) as (Hrun & _ & _).
    destruct Hrun as [status evs w' Hacq | buf evs rs w' Hacq _ Hall
                     | buf evs rs r out' w' Hacq _ _ _ _ _].
    + erewrite acquired_executions in Hlast by done. done.
    + rewrite executions_app, executions_execute in Hlast.
      erewrite acquired_executions in Hlast by done. rewrite app_nil_l in Hlast.
      apply last_execution_busy in Hlast; [|done].
      exfalso. apply QPL_STS_OK_not_busy. congruence.
    + rewrite executions_app, executions_execute in Hlast.
      erewrite acquired_executions in Hlast by done.
      rewrite app_nil_l, fmap_app, list_fmap_singleton, last_snoc in Hlast.
      simplify_eq. cbn [snd] in Hok.
      destruct (decide (exec_status r <> QPL_STS_OK)); [done|].
      eexists. reflexivity.
  - intros status out i Hret Hi Hout.
    rewrite (Compress_returns_header tid options_ input [] fuel w status out i);
      [ | exact Hret | | | exact Hout].
    + transitivity (take (List.length prefix) (Compress_resized input []) !! i);
        [symmetry; apply lookup_take_lt; exact Hi | by rewrite Htake].
    + rewrite Compress_header_length_empty. fold n. rewrite Hprefix. lia.
    + change (2 ^ 32) with 4294967296 in *. lia.
  - intros status out Hret Hne. subst r.
    destruct (Compress_returned tid options_ input [] fuel w status out Hret)
      as (out' & Hlen' & Htake' & [(_ & -> & Hwhy)|(-> & _)]); [|done].
    rewrite Compress_header_length_empty in Htake'. fold n in Htake'.
    rewrite Hprefix, Nat2Z.id, Htake in Htake'.
    split; [by rewrite Hlen'|]. split; [done|]. split; [|done].
    rewrite <- (take_drop (List.length prefix) out'), Htake'.
    by apply decode_size_prefixed.
  - intros out Hret. subst r.
    destruct (Compress_returned tid options_ input [] fuel w OK out Hret)
      as (out' & Hlen' & Htake' & [(Hne & _)|(_ & x & Hlast & Hok & ->)]);
      [done|].
    rewrite Compress_header_length_empty in *. fold n in Htake' |- *.
    rewrite Hprefix in *. rewrite Nat2Z.id, Htake in Htake'.
    exists x. split; [done|]. split; [done|].
    unfold string_resize. rewrite length_resize. unfold wrap32.
    pose proof (Z.mod_pos_bound
                  (Z.of_nat (List.length prefix) + exec_total_out x.2 mod 2 ^ 32)
                  (2 ^ 32) ltac:(done)) as Hbound.
    split; [lia|]. intros Hle.
    assert (Htake'' : take (List.length prefix)
                        (resize
                           (Z.to_nat
                              ((Z.of_nat (List.length prefix)
                                + exec_total_out x.2 mod 2 ^ 32) mod 2 ^ 32))
                           0 out') = prefix).
    { rewrite take_resize_le by lia.
      rewrite resize_le; [done|].
      change (2 ^ 32) with 4294967296 in *. lia. }
    split; [done|].
    rewrite <- (take_drop (List.length prefix) (resize _ _ _)), Htake''.
    by apply decode_size_prefixed.
  - intros Hfuel. by apply Compress_progress.
Qed.

Lemma Compress_long_input_wraps_prefix_witness :
  let w := Scripted.fresh (Scripted.healthy [] (Scripted.result 0 10 [])) in
  let r := Compress 0 (default_options qpl_path_software)
             {| data_ := 4096; size_ := 2 ^ 32 + 300 |} [] 1 w in
  2 ^ 32 <= 2 ^ 32 + 300 < 2 ^ 63
  /\ exists out,
       returned r = Some (OK, out)
       /\ List.length out = 12%nat
       /\ decode_size out = Some (300, 2%nat).
Proof.
  intros w r. split; [done|].
  destruct (Compress_long_input_wraps_prefix (H := Scripted.scripted_engine) 0
              (default_options qpl_path_software)
              {| data_ := 4096; size_ := 2 ^ 32 + 300 |} 1 w ltac:(done))
    as (_ & _ & _ & _ & _ & _ & _ & _ & Hok & _).
  assert (Hrun : fst <$> returned r = Some OK
                 /\ (fun x => exec_total_out x.2)
                    <$> last (executions (new_events w r)) = Some 10).
  { subst r. rewrite Compress_unfold.
    generalize (Compress_resized {| data_ := 4096; size_ := 2 ^ 32 + 300 |} [])
               (Compress_configured (default_options qpl_path_software)
                  {| data_ := 4096; size_ := 2 ^ 32 + 300 |} []).
    intros resized job. vm_compute. done. }
  destruct Hrun as (Hret & Htotal).
  destruct (returned r) as [[status out]|] eqn:Hr; [|done].
  cbn in Hret. injection Hret as ->.
  destruct (Hok out Hr) as (x & Hlast & _ & Hlen & Hdec).
  fold r in Hlast. rewrite Hlast in Htotal. cbn in Htotal.
  injection Htotal as Htotal. rewrite Htotal in Hlen.
  cbn [size_] in Hlen, Hdec.
  change (List.length (encode_size ((2 ^ 32 + 300) mod 2 ^ 32))) with 2%nat
    in Hlen, Hdec.
  change ((2 ^ 32 + 300) mod 2 ^ 32) with 300 in Hdec.
  change ((Z.of_nat 2 + 10 mod 2 ^ 32) mod 2 ^ 32) with 12 in Hlen.
  exists out. split; [done|]. split; [lia|].
  apply Hdec. lia.
Defined.

(** ** Jobs across calls *)

Section JobsAcrossCalls.

Context {E : Type} `{QplEngine E}.

Lemma Compress_run_acquired tid options_ input output fuel v r evs :
  Compress_run tid options_ input output fuel v r evs ->
  exists res evs0 rs,
    acquired tid (execution_path options_) v res
      (deflate_job_ (final_state r)) evs0
    /\ evs = evs0 ++ (CallExecuteJob tid Deflate
                        (match res with
                         | inr buf => buf
                         | inl _ => Build_job_buffer 0 0 false
                         end)
                        (Compress_configured options_ input output) <$> rs)
    /\ (rs <> [] -> exists buf, res = inr buf)
    /\ (forall buf, res = inr buf ->
        rs = [] -> (r : run (Status * bytes) (World E)) = Spinning (final_state r)
                   /\ fuel = 0%nat).
Proof.
  destruct 1 as [status evs w' Hacq | buf evs rs w' Hacq Hlen Hall
                | buf evs rs r out' w' Hacq Hlen Hall Hr _ _].
  - exists (inl status), evs, []. cbn. rewrite app_nil_r.
    split; [done|]. split; [done|]. split; [done|]. intros buf [=].
  - exists (inr buf), evs, rs. cbn.
    split; [done|]. split; [done|]. split; [eauto|].
    intros buf' _ ->. cbn in Hlen. done.
  - exists (inr buf), evs, (rs ++ [r]). cbn.
    split; [done|]. split; [done|]. split; [eauto|].
    intros buf' _ Hnil. by destruct rs.
Qed.

Lemma Uncompress_run_acquired tid options_ info input output output_length
    fuel v r evs :
  Uncompress_run tid options_ info input output output_length fuel v r evs ->
  (inflate_job_ (final_state r) = v
   /\ filter is_setup_event evs = [] /\ executions evs = []
   /\ forall new_input n p,
        DecodeSize input = Some (new_input, n) ->
        Allocate n (GetMemoryAllocator info) = AllocReturns p -> p = 0)
  \/ exists new_input n p res evs0 rs,
       DecodeSize input = Some (new_input, n)
       /\ Allocate n (GetMemoryAllocator info) = AllocReturns p
       /\ p <> 0
       /\ acquired tid (execution_path options_) v res
            (inflate_job_ (final_state r)) evs0
       /\ evs = CallAllocate tid n (AllocReturns p)
                :: evs0 ++ (CallExecuteJob tid Inflate
                              (match res with
                               | inr buf => buf
                               | inl _ => Build_job_buffer 0 0 false
                               end)
                              (Uncompress_job input new_input p n) <$> rs)
       /\ (rs <> [] -> exists buf, res = inr buf)
       /\ (forall buf, res = inr buf -> rs = [] -> fuel = 0%nat).
Proof.
  destruct 1 as [w' Hdec Hv | ? ? w' Hdec Halloc Hv | ? ? w' Hdec Halloc Hv
                | new_input n p status evs w' Hdec Halloc Hp Hacq
                | new_input n p buf evs rs w' Hdec Halloc Hp Hacq Hlen Hall
                | new_input n p buf evs rs r w' Hdec Halloc Hp Hacq Hlen Hall Hr];
    [left; do 3 (split; [done|]); intros; congruence.. | right | right | right].
  - exists new_input, n, p, (inl status), evs, []. cbn. rewrite app_nil_r.
    do 6 (split; [done|]). intros buf [=].
  - exists new_input, n, p, (inr buf), evs, rs. cbn.
    do 5 (split; [done|]). split; [eauto|]. intros buf' _ ->. done.
  - exists new_input, n, p, (inr buf), evs, (rs ++ [r]). cbn.
    do 5 (split; [done|]). split; [eauto|]. intros buf' _ Hnil. by destruct rs.
Qed.

(** No call removes or replaces a job that is in one of the vectors. *)
Lemma after_call_keeps c0 slot job cl (w : World E) :
  job_vector c0 w !! slot = Some job ->
  job_vector c0 (after_call cl w) !! slot = Some job.
Proof.
  intros Hjob. destruct cl as [tid o input output fuel
                              | tid o info input output output_length fuel];
    cbn [after_call].
  - destruct (Compress_runs tid o input output fuel w) as (Hrun & _ & Hother).
    destruct c0; cbn [job_vector] in *; [|by rewrite Hother].
    apply Compress_run_acquired in Hrun as (res & evs0 & rs & Hacq & _).
    by eapply acquired_keeps.
  - destruct (Uncompress_runs tid o info input output output_length fuel w)
      as (Hrun & _ & Hother).
    destruct c0; cbn [job_vector] in *; [by rewrite Hother|].
    apply Uncompress_run_acquired in Hrun
      as [(-> & _)|(? & ? & ? & res & evs0 & rs & _ & _ & _ & Hacq & _)];
      [done|].
    by eapply acquired_keeps.
Qed.

Lemma after_calls_keeps c0 slot job cs :
  forall w : World E,
    job_vector c0 w !! slot = Some job ->
    job_vector c0 (after_calls cs w) !! slot = Some job.
Proof.
  induction cs as [|cl cs IH]; intros w Hjob; [done|].
  cbn. apply IH. by apply after_call_keeps.
Qed.

(** What an initialisation call among the calls of a lookup tells. *)
Lemma acquired_init_event tid path v res v' evs tid' path' job status :
  acquired tid path v res v' evs ->
  CallInitJob tid' path' job status ∈ evs ->
  buf_initialized job = false
  /\ ((status = QPL_STS_OK
       /\ exists job', res = inr job'
                       /\ v' !! (tid, path_index path) = Some job'
                       /\ buf_initialized job' = true
                       /\ buf_addr job' = buf_addr job)
      \/ (status <> QPL_STS_OK
          /\ res = inl (Corruption (QPL_STATUS status))
          /\ v' !! (tid, path_index path) = Some job)).
Proof.
  destruct 1 as [ | | | st size job0 Hnone Hst Hinit
                | size job0 job' Hnone Hinit Hinit' Haddr]; intros Hin.
  - by apply elem_of_nil in Hin.
  - apply list_elem_of_singleton in Hin. done.
  - repeat (apply elem_of_cons in Hin as [Hin|Hin]; [done|]).
    by apply elem_of_nil in Hin.
  - repeat (apply elem_of_cons in Hin as [Hin|Hin]; [try done|]);
      [|by apply elem_of_nil in Hin].
    simplify_eq. split; [done|]. right.
    split; [done|]. split; [done|]. apply lookup_insert_eq.
  - repeat (apply elem_of_cons in Hin as [Hin|Hin]; [try done|]);
      [|by apply elem_of_nil in Hin].
    simplify_eq. split; [done|]. left. split; [done|].
    exists job'. split; [done|]. split; [apply lookup_insert_eq|done].
Qed.

Lemma init_event_not_execute tid' path' job status tid c buf j
    (rs : list exec_result) :
  CallInitJob tid' path' job status ∉ (CallExecuteJob tid c buf j <$> rs).
Proof. intros (r & Heq & _)%list_elem_of_fmap. done. Qed.


End JobsAcrossCalls.

Section CachedJobs.

Context {E : Type} `{QplEngine E}.

Lemma uses_only_executions tid c job j (rs : list exec_result) :
  op j = operation_of c ->
  uses_only c job (CallExecuteJob tid c job j <$> rs).
Proof.
  intros Hop. split; [apply filter_setup_execute|].
  rewrite executions_execute. apply Forall_fmap, Forall_forall. by intros r _.
Qed.

(** [Compress] on a slot that holds a job: its calls are executions on
    that job, at least one when it has fuel. *)
Lemma Compress_cached tid options_ input output fuel (w : World E) job :
  deflate_job_ w !! (tid, path_index (execution_path options_)) = Some job ->
  exists rs,
    new_events w (Compress tid options_ input output fuel w)
    = CallExecuteJob tid Deflate job (Compress_configured options_ input output) <$> rs
    /\ (fuel <> 0%nat -> rs <> []).
Proof.
  intros Hjob.
  destruct (Compress_runs tid options_ input output fuel w) as (Hrun & _ & _).
  apply Compress_run_acquired in Hrun
    as (res & evs0 & rs & Hacq & -> & _ & Hfuel).
  destruct (acquired_cached_inv _ _ _ _ _ _ _ Hacq Hjob) as (-> & _ & ->).
  exists rs. split; [done|]. intros Hne ->.
  by destruct (Hfuel job eq_refl eq_refl).
Qed.

(** [Uncompress] on a slot that holds a job: after the allocation, its
    calls are executions on that job, at least one when it has fuel. *)
Lemma Uncompress_cached tid options_ info input output output_length fuel
    (w : World E) job :
  inflate_job_ w !! (tid, path_index (execution_path options_)) = Some job ->
  uses_only Inflate job
    (new_events w (Uncompress tid options_ info input output output_length fuel w))
  /\ (forall new_input n p,
         DecodeSize input = Some (new_input, n) ->
         Allocate n (GetMemoryAllocator info) = AllocReturns p ->
         p <> 0 ->
         exists rs,
           new_events w (Uncompress tid options_ info input output output_length fuel w)
           = CallAllocate tid n (AllocReturns p)
             :: (CallExecuteJob tid Inflate job
                   (Uncompress_job input new_input p n) <$> rs)
           /\ (fuel <> 0%nat -> rs <> [])).
Proof.
  intros Hjob.
  destruct (Uncompress_runs tid options_ info input output output_length fuel w)
    as (Hrun & _ & _).
  apply Uncompress_run_acquired in Hrun
    as [(Hv & Hsetup & Hexec & Hnull)
       |(new_input & n & p & res & evs0 & rs & Hdec & Halloc & Hp & Hacq
         & Hevs & _ & Hfuel)].
  - split; [split; [done|by rewrite Hexec]|].
    intros new_input n p Hdec Halloc Hp. exfalso. eauto.
  - rewrite Hevs.
    destruct (acquired_cached_inv _ _ _ _ _ _ _ Hacq Hjob) as (-> & _ & ->).
    cbn [app]. split.
    + split.
      * rewrite filter_cons_False by (cbn; auto). apply filter_setup_execute.
      * rewrite executions_allocate, executions_execute.
        apply Forall_fmap, Forall_forall. by intros r _.
    + intros new_input' n' p' Hdec' Halloc' Hp'. simplify_eq.
      assert (p' = p) as -> by congruence.
      exists rs. split; [done|]. intros Hne ->. by apply Hne, (Hfuel job).
Qed.

End CachedJobs.

Section InitEvents.

Context {E : Type} `{QplEngine E}.

(** An initialisation call among the calls of a run of [Compress]. *)
Lemma Compress_init_event tid options_ input output fuel (w : World E)
    tid' path' job status :
  let r := Compress tid options_ input output fuel w in
  CallInitJob tid' path' job status ∈ new_events w r ->
  buf_initialized job = false
  /\ ((status = QPL_STS_OK
       /\ exists job',
            deflate_job_ (final_state r)
              !! (tid, path_index (execution_path options_)) = Some job'
            /\ buf_initialized job' = true
            /\ buf_addr job' = buf_addr job)
      \/ (status <> QPL_STS_OK
          /\ returned r
             = Some (Corruption (QPL_STATUS status), Compress_resized input output)
          /\ deflate_job_ (final_state r)
               !! (tid, path_index (execution_path options_)) = Some job)).
Proof.
  intros r Hin. subst r.
  destruct (Compress_runs tid options_ input output fuel w) as (Hrun & _ & _).
  destruct Hrun as [st evs w' Hacq | buf evs rs w' Hacq _ _
                   | buf evs rs r out' w' Hacq _ _ _ _ _];
    try (apply elem_of_app in Hin as [Hin|Hin];
         [|by apply init_event_not_execute in Hin]);
    destruct (acquired_init_event _ _ _ _ _ _ _ _ _ _ Hacq Hin)
      as (Hinit & [(-> & job' & Hres & Hslot & Hinit' & Haddr)
                  |(Hst & Hres & Hslot)]);
    simplify_eq; (split; [done|]); cbn [final_state returned]; eauto 10.
Qed.

(** An initialisation call among the calls of a run of [Uncompress]. *)
Lemma Uncompress_init_event tid options_ info input output output_length fuel
    (w : World E) tid' path' job status :
  let r := Uncompress tid options_ info input output output_length fuel w in
  CallInitJob tid' path' job status ∈ new_events w r ->
  buf_initialized job = false
  /\ ((status = QPL_STS_OK
       /\ exists job',
            inflate_job_ (final_state r)
              !! (tid, path_index (execution_path options_)) = Some job'
            /\ buf_initialized job' = true
            /\ buf_addr job' = buf_addr job)
      \/ (status <> QPL_STS_OK
          /\ (exists new_input n p,
                 DecodeSize input = Some (new_input, n)
                 /\ Allocate n (GetMemoryAllocator info) = AllocReturns p
                 /\ p <> 0
                 /\ returned r
                    = Some (Corruption (QPL_STATUS status), p, output_length))
          /\ inflate_job_ (final_state r)
               !! (tid, path_index (execution_path options_)) = Some job)).
Proof.
  intros r Hin. subst r.
  destruct (Uncompress_runs tid options_ info input output output_length fuel w)
    as (Hrun & _ & _).
  destruct Hrun as [w' _ _ | ? ? w' _ _ _ | ? ? w' _ _ _
                   | new_input n p st evs w' Hdec Halloc Hp Hacq
                   | new_input n p buf evs rs w' Hdec Halloc Hp Hacq _ _
                   | new_input n p buf evs rs r w' Hdec Halloc Hp Hacq _ _ _];
    try (by apply elem_of_nil in Hin);
    try (by apply list_elem_of_singleton in Hin);
    (apply elem_of_cons in Hin as [Hin|Hin]; [done|]);
    try (apply elem_of_app in Hin as [Hin|Hin];
         [|by apply init_event_not_execute in Hin]);
    destruct (acquired_init_event _ _ _ _ _ _ _ _ _ _ Hacq Hin)
      as (Hinit & [(-> & job' & Hres & Hslot & Hinit' & Haddr)
                  |(Hst & Hres & Hslot)]);
    simplify_eq; (split; [done|]); cbn [final_state returned]; eauto 12.
Qed.

End InitEvents.

(** ** Reuse of the cached job *)




(** ** A failed initialisation *)

(** C8: every job in a vector having been initialised with success is not
    an invariant of the code.  When [qpl_init_job] fails on the first use of
    a thread and path, the call returns the Corruption of that status but
    the slot keeps the job that was never initialised; the next call of the
    same operation on that thread and path (whatever calls are made in
    between) sizes and initialises nothing and, instead of failing, goes on
    to execute on the job that was never initialised. *)
Theorem failed_init_leaves_job_cached {E : Type} `{QplEngine E}
    (tid : nat) (options_ : IAACompressorOptions) (fuel : nat) (w : World E)
    (job : job_buffer) (status : qpl_status) :
  status <> QPL_STS_OK ->
  (forall input output,
      let r := Compress tid options_ input output fuel w in
      CallInitJob tid (execution_path options_) job status ∈ new_events w r ->
      returned r
      = Some (Corruption (QPL_STATUS status), Compress_resized input output)
      /\ buf_initialized job = false
      /\ deflate_job_ (final_state r)
           !! (tid, path_index (execution_path options_)) = Some job
      /\ forall between options2 input2 output2 fuel2,
           execution_path options2 = execution_path options_ ->
           let w2 := after_calls between (final_state r) in
           let r2 := Compress tid options2 input2 output2 (S fuel2) w2 in
           uses_only Deflate job (new_events w2 r2)
           /\ exists result,
                head (new_events w2 r2)
                = Some (CallExecuteJob tid Deflate job
                          (Compress_configured options2 input2 output2) result))
  /\ (forall info input output output_length,
         let r := Uncompress tid options_ info input output output_length fuel w in
         CallInitJob tid (execution_path options_) job status ∈ new_events w r ->
         (fun x => x.1.1) <$> returned r = Some (Corruption (QPL_STATUS status))
         /\ buf_initialized job = false
         /\ inflate_job_ (final_state r)
              !! (tid, path_index (execution_path options_)) = Some job
         /\ forall between options2 info2 input2 output2 output_length2 fuel2,
              execution_path options2 = execution_path options_ ->
              let w2 := after_calls between (final_state r) in
              let r2 := Uncompress tid options2 info2 input2 output2
                          output_length2 (S fuel2) w2 in
              uses_only Inflate job (new_events w2 r2)
              /\ forall new_input n p,
                   DecodeSize input2 = Some (new_input, n) ->
                   Allocate n (GetMemoryAllocator info2) = AllocReturns p ->
                   p <> 0 ->
                   exists result,
                     new_events w2 r2 !! 1%nat
                     = Some (CallExecuteJob tid Inflate job
                               (Uncompress_job input2 new_input p n) result)).
Proof.
  intros Hne. split.
  - intros input output r Hin. subst r.
    destruct (Compress_init_event _ _ _ _ _ _ _ _ _ _ Hin)
      as (Hinit & [(-> & _)|(_ & Hret & Hslot)]); [done|].
    split; [done|]. split; [done|]. split; [done|].
    intros between options2 input2 output2 fuel2 Hpath w2 r2. subst r2.
    assert (Hjob : deflate_job_ w2
                     !! (tid, path_index (execution_path options2)) = Some job).
    { rewrite Hpath. by apply (after_calls_keeps Deflate). }
    destruct (Compress_cached tid options2 input2 output2 (S fuel2) w2 job Hjob)
      as (rs & -> & Hrs).
    split; [by apply uses_only_executions|].
    destruct rs as [|result rs]; [by destruct Hrs|]. by exists result.
  - intros info input output output_length r Hin. subst r.
    destruct (Uncompress_init_event _ _ _ _ _ _ _ _ _ _ _ _ Hin)
      as (Hinit & [(-> & _)|(_ & (new_input & n & p & _ & _ & _ & Hret) & Hslot)]);
      [done|].
    split; [by rewrite Hret|]. split; [done|]. split; [done|].
    intros between options2 info2 input2 output2 output_length2 fuel2 Hpath w2 r2.
    subst r2.
    assert (Hjob : inflate_job_ w2
                     !! (tid, path_index (execution_path options2)) = Some job).
    { rewrite Hpath. by apply (after_calls_keeps Inflate). }
    destruct (Uncompress_cached tid options2 info2 input2 output2 output_length2
                (S fuel2) w2 job Hjob) as (Huses & Hexec).
    split; [done|].
    intros new_input2 n2 p2 Hdec Halloc Hp.
    destruct (Hexec new_input2 n2 p2 Hdec Halloc Hp) as (rs & -> & Hrs).
    destruct rs as [|result rs]; [by destruct Hrs|]. by exists result.
Qed.

Lemma failed_init_leaves_job_cached_witness :
  let options_ := default_options qpl_path_software in
  let input := {| data_ := 4096; size_ := 10 |} in
  let w := Scripted.fresh init_fails_once in
  let first := Compress 0 options_ input [] 1 w in
  let job := {| buf_addr := 0; buf_size := 4096; buf_initialized := false |} in
  (7 : qpl_status) <> 0
  /\ CallInitJob 0 qpl_path_software job 7 ∈ new_events w first
  /\ returned first = Some (Corruption "QPL status 7", Compress_resized input [])
  /\ exists result,
       head (new_events (final_state first)
               (Compress 0 options_ input [] 1 (final_state first)))
       = Some (CallExecuteJob 0 Deflate job
                 (Compress_configured options_ input []) result).
Proof.
  intros options_ input w first job.
  assert (Hne : (7 : qpl_status) <> 0) by discriminate.
  assert (Hin : CallInitJob 0 qpl_path_software job 7 ∈ new_events w first).
  { vm_compute. do 2 apply list_elem_of_further. apply list_elem_of_here. }
  split; [exact Hne|]. split; [exact Hin|].
  destruct (proj1 (failed_init_leaves_job_cached (H := Scripted.scripted_engine)
                     0 options_ 1 w job 7 Hne) input [] Hin)
    as (Hret & _ & _ & Hnext).
  split; [exact Hret|].
  exact (proj2 (Hnext [] options_ input [] 0%nat eq_refl)).
Defined.

(** * Further properties of the code *)

(** ** The length prefix *)

Section PrefixShape.

Import Coding.

Lemma wrap32_range z : 0 <= wrap32 z < 2 ^ 32.
Proof. unfold wrap32. apply Z.mod_pos_bound. reflexivity. Qed.

Lemma lor_uint32 a b :
  0 <= a < 2 ^ 32 -> 0 <= b < 2 ^ 32 -> 0 <= Z.lor a b < 2 ^ 32.
Proof.
  intros Ha Hb.
  assert (Heq : Z.lor a b = Z.lor a b mod 2 ^ 32).
  { rewrite <- Z.land_ones by lia. rewrite Z.land_lor_distr_l.
    rewrite !Z.land_ones by lia. by rewrite !Z.mod_small. }
  rewrite Heq. apply Z.mod_pos_bound. reflexivity.
Qed.

(** A decoding that succeeds has read at least one byte, hands back what
    follows the bytes it read, and yields a 32-bit value. *)
Lemma GetVarint32PtrFallback_shape groups :
  forall shift result p rest v,
    0 <= result < 2 ^ 32 ->
    GetVarint32PtrFallback groups shift result p = Some (rest, v) ->
    (exists consumed, p = consumed ++ rest /\ consumed <> [])
    /\ 0 <= v < 2 ^ 32.
Proof.
  induction groups as [|groups IH]; intros shift result p rest v Hres Hdec;
    [done|].
  destruct p as [|byte p]; [done|].
  cbn [GetVarint32PtrFallback] in Hdec.
  destruct (Z.land byte 128 =? 0).
  - simplify_eq. split; [by exists [byte]|].
    apply lor_uint32; [done | apply wrap32_range].
  - apply IH in Hdec as [(consumed & -> & _) Hv];
      [|apply lor_uint32; [done | apply wrap32_range]].
    split; [|done]. by exists (byte :: consumed).
Qed.

(** All bytes of a varint but the last carry the continuation bit. *)
Lemma EncodeVarint32_continuation more :
  forall v (k : nat),
    0 <= v ->
    (k < List.length (EncodeVarint32 more v))%nat ->
    Forall (fun byte => Z.land byte 128 <> 0) (take k (EncodeVarint32 more v)).
Proof.
  induction more as [|more IH]; intros v k Hv Hk; cbn [EncodeVarint32] in *.
  - destruct k; [constructor | cbn in Hk; lia].
  - destruct (v <? 128).
    + destruct k; [constructor | cbn in Hk; lia].
    + destruct k as [|k]; [constructor|]. cbn [take]. constructor.
      * rewrite continuation_byte by done.
        rewrite land_128_continuation by (apply Z.mod_pos_bound; lia). done.
      * apply IH; [apply Z.shiftr_nonneg; lia | cbn in Hk; lia].
Qed.

End PrefixShape.

(** A [DecodeSize] that succeeds hands back what follows the bytes it
    read, of which there is at least one, and a 32-bit length. *)
Lemma DecodeSize_shape (input new_input : bytes) (n : Z) :
  DecodeSize input = Some (new_input, n) ->
  (exists consumed, input = consumed ++ new_input /\ consumed <> [])
  /\ 0 <= n < 2 ^ 32.
Proof.
  unfold DecodeSize, Coding.GetVarint32Ptr. intros Hdec.
  destruct (Coding.GetVarint32PtrFallback 5 0 0 input) as [[rest v]|] eqn:Hget;
    [|done].
  simplify_eq.
  by apply GetVarint32PtrFallback_shape in Hget.
Qed.

(** X1: when [DecodeSize] succeeds, the range it hands back is what follows
    the bytes it read, it has read at least one byte, and the length it
    decoded is a 32-bit value. *)
Theorem DecodeSize_advances (input new_input : bytes) (n : Z) :
  DecodeSize input = Some (new_input, n) ->
  (exists consumed, input = consumed ++ new_input /\ consumed <> [])
  /\ (List.length new_input < List.length input)%nat
  /\ 0 <= n < 2 ^ 32.
Proof.
  intros Hdec.
  destruct (DecodeSize_shape input new_input n Hdec) as [(consumed & -> & Hne) Hn].
  split; [by exists consumed|]. split; [|done].
  rewrite length_app. destruct consumed; [done|]. cbn. lia.
Qed.

Lemma DecodeSize_advances_witness :
  DecodeSize [172; 2; 7; 7] = Some ([7; 7], 300)
  /\ (List.length [7; 7] < List.length [172; 2; 7; 7])%nat.
Proof.
  split; [reflexivity|].
  apply (DecodeSize_advances [172; 2; 7; 7] [7; 7] 300). reflexivity.
Defined.

(** X2: a framed block that is cut inside its length prefix is always
    detected: for every length [n] below [2^32] and every [k] shorter than
    the varint of [n], [Uncompress] of the first [k] bytes of the varint
    returns the Corruption for the size decoding error and leaves the state
    and the caller's pointer and length as they were. *)
Theorem Uncompress_cut_prefix_detected {E : Type} `{QplEngine E}
    (tid : nat) (options_ : IAACompressorOptions) (info : UncompressionInfo)
    (n : Z) (k : nat) (output output_length : Z) (fuel : nat) (w : World E) :
  0 <= n < 2 ^ 32 ->
  (k < List.length (encode_size n))%nat ->
  Uncompress tid options_ info (take k (encode_size n)) output output_length fuel w
  = Returns (Corruption "size decoding error", output, output_length) w.
Proof.
  intros Hn Hk. unfold Uncompress.
  rewrite DecodeSize_truncated; [done|].
  unfold truncated_prefix, encode_size, EncodeSize, Coding.PutVarint32 in *.
  cbn [snd app] in *. rewrite wrap32_small in * by done.
  apply EncodeVarint32_continuation; [lia | done].
Qed.

Lemma Uncompress_cut_prefix_detected_witness :
  0 <= 100000 < 2 ^ 32 /\ (2 < List.length (encode_size 100000))%nat /\
  Uncompress 0 (default_options qpl_path_software)
    {| GetMemoryAllocator := fun _ => AllocReturns 4096 |}
    (take 2 (encode_size 100000)) 0 0 1
    (Scripted.fresh (Scripted.healthy [] (Scripted.result 0 10 [])))
  = Returns (Corruption "size decoding error", 0, 0)
      (Scripted.fresh (Scripted.healthy [] (Scripted.result 0 10 []))).
Proof.
  assert (Hn : 0 <= 100000 < 2 ^ 32) by done.
  assert (Hk : (2 < List.length (encode_size 100000))%nat) by (vm_compute; lia).
  split; [exact Hn|]. split; [exact Hk|].
  apply (Uncompress_cut_prefix_detected (H := Scripted.scripted_engine) 0
           (default_options qpl_path_software)
           {| GetMemoryAllocator := fun _ => AllocReturns 4096 |}
           100000 2 0 0 1
           (Scripted.fresh (Scripted.healthy [] (Scripted.result 0 10 [])))
           Hn Hk).
Defined.

(** ** The retry loop, from the engine's side *)

Section RetryAnswers.

Context {E : Type} `{QplEngine E} {S : Type}.

Variable execute : S -> qpl_status * S.

Lemma answers_busy_spinning fuel s s' :
  answers_busy execute fuel s s' ->
  execute_while_busy fuel execute s = Spinning s'.
Proof.
  induction 1 as [s|k s s' s'' Hex _ IH]; [done|].
  cbn [execute_while_busy]. rewrite Hex.
  by destruct (decide (QPL_STS_QUEUES_ARE_BUSY_ERR = QPL_STS_QUEUES_ARE_BUSY_ERR)).
Qed.

Lemma answers_busy_shorter k s s1 :
  answers_busy execute k s s1 ->
  forall fuel, (fuel <= k)%nat -> exists s', answers_busy execute fuel s s'.
Proof.
  induction 1 as [s|k s s' s'' Hex _ IH]; intros fuel Hle.
  - assert (fuel = 0%nat) as -> by lia. exists s. constructor.
  - destruct fuel as [|fuel]; [exists s; constructor|].
    destruct (IH fuel ltac:(lia)) as (s3 & Hs3).
    exists s3. by econstructor.
Qed.

Lemma answers_busy_returns k s s1 status s2 :
  answers_busy execute k s s1 ->
  execute s1 = (status, s2) ->
  status <> QPL_STS_QUEUES_ARE_BUSY_ERR ->
  forall fuel, (k < fuel)%nat ->
    execute_while_busy fuel execute s = Returns status s2.
Proof.
  induction 1 as [s|k s s' s'' Hex _ IH]; intros Hlast Hne fuel Hlt;
    (destruct fuel as [|fuel]; [lia|]); cbn [execute_while_busy].
  - rewrite Hlast. by destruct (decide (status = QPL_STS_QUEUES_ARE_BUSY_ERR)).
  - rewrite Hex.
    destruct (decide (QPL_STS_QUEUES_ARE_BUSY_ERR = QPL_STS_QUEUES_ARE_BUSY_ERR));
      [|done].
    apply IH; [done | done | lia].
Qed.

End RetryAnswers.

(** X3: the retry loop of both operations ends exactly at the first answer
    that is not busy.  If the execution step answers busy [k] times in a
    row and then answers [status], which is not busy, the loop returns
    [status] with the state of that answer as soon as it is given more than
    [k] executions, and is still spinning, after [fuel] busy answers, when
    it is given [fuel <= k] executions. *)
Theorem execute_while_busy_first_answer {E : Type} `{QplEngine E} {S : Type}
    (execute : S -> qpl_status * S) (k : nat) (s s1 s2 : S)
    (status : qpl_status) (fuel : nat) :
  answers_busy execute k s s1 ->
  execute s1 = (status, s2) ->
  status <> QPL_STS_QUEUES_ARE_BUSY_ERR ->
  ((k < fuel)%nat -> execute_while_busy fuel execute s = Returns status s2)
  /\ ((fuel <= k)%nat ->
      exists s', execute_while_busy fuel execute s = Spinning s'
                 /\ answers_busy execute fuel s s').
Proof.
  intros Hbusy Hlast Hne. split.
  - intros Hlt. by eapply answers_busy_returns.
  - intros Hle.
    destruct (answers_busy_shorter execute k s s1 Hbusy fuel Hle) as (s' & Hs').
    exists s'. split; [by apply answers_busy_spinning | done].
Qed.

Lemma execute_while_busy_first_answer_witness :
  let execute := fun i : nat => ((if (i <? 2)%nat then 5 else 0) : qpl_status, S i) in
  answers_busy (H := Scripted.scripted_engine) execute 2 0%nat 2%nat
  /\ execute_while_busy (H := Scripted.scripted_engine) 3 execute 0%nat
     = Returns 0 3%nat.
Proof.
  intros execute.
  assert (Hbusy : answers_busy (H := Scripted.scripted_engine) execute 2 0%nat 2%nat).
  { apply (answers_busy_S execute 1 0%nat 1%nat 2%nat); [reflexivity|].
    apply (answers_busy_S execute 0 1%nat 2%nat 2%nat); [reflexivity|].
    apply answers_busy_O. }
  split; [exact Hbusy|].
  apply (execute_while_busy_first_answer (H := Scripted.scripted_engine)
           execute 2 0%nat 2%nat 3%nat 0 3 Hbusy eq_refl); [discriminate | lia].
Defined.

(** ** The jobs handed to the engine *)

Section JobsHandedOver.

Context {E : Type} `{QplEngine E}.

Lemma GetQplLevel_default level :
  GetQplLevel level
  = if decide (level = 0 \/ level = kDefaultCompressionLevel)
    then qpl_default_level else qpl_high_level.
Proof.
  unfold GetQplLevel.
  destruct (Z.eqb_spec level 0), (Z.eqb_spec level kDefaultCompressionLevel);
    cbn [orb]; destruct (decide _) as [Hd|Hd]; try done;
    exfalso; tauto.
Qed.

Lemma Compress_job_flags options_ input output h cap (f : qpl_flag) :
  f ∈ flags (Compress_job options_ input output h cap)
  <-> f = QPL_FLAG_FIRST \/ f = QPL_FLAG_LAST \/ f = QPL_FLAG_OMIT_CHECKSUMS
      \/ (f = QPL_FLAG_OMIT_VERIFY /\ verify options_ = false)
      \/ (f = QPL_FLAG_DYNAMIC_HUFFMAN /\ compression_mode options_ = dynamic_mode).
Proof.
  unfold Compress_job. cbn [flags].
  rewrite list_elem_of_In.
  destruct (verify options_), (decide (compression_mode options_ = dynamic_mode))
    as [Hm|Hm]; cbn [negb app In]; intuition congruence.
Qed.

(** A lookup that hands out a job leaves that job in its place of the
    vector: it was there before, or the place was empty and the job has
    just been initialised. *)
Lemma acquired_inr_lookup (tid : nat) (path : qpl_path_t)
    (v v' : gmap (nat * nat) job_buffer) buf evs :
  acquired tid path v (inr buf) v' evs ->
  v' !! (tid, path_index path) = Some buf
  /\ (v !! (tid, path_index path) = Some buf
      \/ (v !! (tid, path_index path) = None /\ buf_initialized buf = true)).
Proof.
  inversion 1; subst.
  - split; [done | by left].
  - rewrite lookup_insert_eq. split; [done | by right].
Qed.

Lemma Compress_executions_buffer tid options_ input output fuel (w : World E) :
  let r := Compress tid options_ input output fuel w in
  let slot := (tid, path_index (execution_path options_)) in
  Forall (fun x =>
            x.1.1.1 = Deflate
            /\ x.1.2 = Compress_configured options_ input output
            /\ deflate_job_ (final_state r) !! slot = Some x.1.1.2
            /\ (deflate_job_ w !! slot = Some x.1.1.2
                \/ (deflate_job_ w !! slot = None
                    /\ buf_initialized x.1.1.2 = true)))
         (executions (new_events w r)).
Proof.
  intros r slot. subst r slot.
  destruct (Compress_runs tid options_ input output fuel w) as (Hrun & _ & _).
  apply Compress_run_acquired in Hrun as (res & evs0 & rs & Hacq & -> & Hres & _).
  rewrite executions_app, executions_execute.
  erewrite acquired_executions by done. rewrite app_nil_l.
  destruct rs as [|r0 rs]; [constructor|].
  destruct Hres as (buf & ->); [done|].
  apply acquired_inr_lookup in Hacq as (Hafter & Hbefore).
  apply Forall_fmap, Forall_forall. intros r _. unfold compose. cbn [fst snd].
  done.
Qed.

Lemma Uncompress_executions_buffer tid options_ info input output output_length
    fuel (w : World E) :
  let r := Uncompress tid options_ info input output output_length fuel w in
  let slot := (tid, path_index (execution_path options_)) in
  Forall (fun x =>
            exists new_input n p,
              DecodeSize input = Some (new_input, n)
              /\ Allocate n (GetMemoryAllocator info) = AllocReturns p
              /\ p <> 0
              /\ x.1.1.1 = Inflate
              /\ x.1.2 = Uncompress_job input new_input p n
              /\ inflate_job_ (final_state r) !! slot = Some x.1.1.2
              /\ (inflate_job_ w !! slot = Some x.1.1.2
                  \/ (inflate_job_ w !! slot = None
                      /\ buf_initialized x.1.1.2 = true)))
         (executions (new_events w r)).
Proof.
  intros r slot. subst r slot.
  destruct (Uncompress_runs tid options_ info input output output_length fuel w)
    as (Hrun & _ & _).
  apply Uncompress_run_acquired in Hrun
    as [(_ & _ & -> & _)
       |(new_input & n & p & res & evs0 & rs & Hdec & Halloc & Hp & Hacq
         & -> & Hres & _)]; [constructor|].
  rewrite executions_allocate, executions_app, executions_execute.
  erewrite acquired_executions by done. rewrite app_nil_l.
  destruct rs as [|r0 rs]; [constructor|].
  destruct Hres as (buf & ->); [done|].
  apply acquired_inr_lookup in Hacq as (Hafter & Hbefore).
  apply Forall_fmap, Forall_forall. intros r _. unfold compose. cbn [fst snd].
  by exists new_input, n, p.
Qed.

(** A run of [Uncompress] that returns success has executed, and one with
    at least one execution allowed has returned or has executed. *)
Lemma Uncompress_progress tid options_ info input output output_length fuel
    (w : World E) :
  let r := Uncompress tid options_ info input output output_length fuel w in
  (forall out len, returned r = Some (OK, out, len) ->
                   executions (new_events w r) <> [])
  /\ ((0 < fuel)%nat ->
      is_Some (returned r) \/ executions (new_events w r) <> []).
Proof.
  intros r. subst r.
  destruct (Uncompress_runs tid options_ info input output output_length fuel w)
    as (Hrun & _ & _).
  destruct Hrun as [w' _ _ | ? ? w' _ _ _ | ? ? w' _ _ _
                   | ? ? p status evs w' _ _ _ Hacq
                   | ? ? p buf evs rs w' _ _ _ Hacq Hlen Hall
                   | ? ? p buf evs rs r w' _ _ _ Hacq Hlen Hall Hr];
    cbn [returned].
  - split; [done | left; by eexists].
  - split; [done | left; by eexists].
  - split; [done | left; by eexists].
  - split; [|left; by eexists].
    intros out len [= -> _ _]. by inversion Hacq.
  - split; [done|]. intros Hfuel. right.
    rewrite executions_allocate, executions_app, executions_execute.
    erewrite acquired_executions by done.
    destruct rs; [cbn in Hlen; lia | done].
  - split; [|left; by eexists]. intros _ _ _.
    rewrite executions_allocate, executions_app, executions_execute.
    erewrite acquired_executions by done.
    rewrite app_nil_l, fmap_app. by destruct rs.
Qed.

End JobsHandedOver.

(** X4: every [qpl_execute_job] call of [Compress] is handed a compression
    job from the compression vector -- the job buffer is the entry of
    [deflate_job_] at the calling thread and [execution_path], which was
    there before the call or has been initialised by it, and [inflate_job_]
    is not touched -- that reads the caller's block from its start, with
    [available_in] the block length reduced modulo [2^32], the default level
    exactly when the configured level is 0 or RocksDB's default level and
    the high level otherwise, and the flags FIRST, LAST and OMIT_CHECKSUMS
    always, OMIT_VERIFY exactly when [verify] is off and DYNAMIC_HUFFMAN
    exactly when the mode is dynamic.  Such a call is made: before success
    is returned, whenever the entry holds a job and one execution is
    allowed, and in any case unless the call has returned. *)
Theorem Compress_hands_over_configured_job {E : Type} `{QplEngine E}
    (tid : nat) (options_ : IAACompressorOptions) (input : Slice)
    (output : bytes) (fuel : nat) (w : World E) :
  let r := Compress tid options_ input output fuel w in
  let slot := (tid, path_index (execution_path options_)) in
  Forall (fun x =>
            x.1.1.1 = Deflate
            /\ deflate_job_ (final_state r) !! slot = Some x.1.1.2
            /\ (deflate_job_ w !! slot = Some x.1.1.2
                \/ (deflate_job_ w !! slot = None
                    /\ buf_initialized x.1.1.2 = true))
            /\ op x.1.2 = qpl_op_compress
            /\ next_in_ptr x.1.2
               = {| ptr_object := SliceData (data_ input);
                    ptr_extent := size_ input; ptr_offset := 0 |}
            /\ available_in x.1.2 = size_ input mod 2 ^ 32
            /\ job_level x.1.2
               = Some (if decide (level options_ = 0
                                  \/ level options_ = kDefaultCompressionLevel)
                       then qpl_default_level else qpl_high_level)
            /\ forall f,
                 f ∈ flags x.1.2
                 <-> f = QPL_FLAG_FIRST \/ f = QPL_FLAG_LAST
                     \/ f = QPL_FLAG_OMIT_CHECKSUMS
                     \/ (f = QPL_FLAG_OMIT_VERIFY /\ verify options_ = false)
                     \/ (f = QPL_FLAG_DYNAMIC_HUFFMAN
                         /\ compression_mode options_ = dynamic_mode))
         (executions (new_events w r))
  /\ inflate_job_ (final_state r) = inflate_job_ w
  /\ (forall out,
         returned r = Some (OK, out) -> executions (new_events w r) <> [])
  /\ ((0 < fuel)%nat -> is_Some (deflate_job_ w !! slot) ->
      executions (new_events w r) <> [])
  /\ ((0 < fuel)%nat ->
      is_Some (returned r) \/ executions (new_events w r) <> []).
Proof.
  intros r slot. subst r slot.
  split; [|split; [|split; [|split]]].
  - eapply Forall_impl; [apply Compress_executions_buffer|].
    intros x (Hc & -> & Hafter & Hbefore). cbn beta.
    split; [done|]. split; [done|]. split; [done|].
    split; [done|]. split; [done|]. split; [done|].
    split; [cbn; by rewrite GetQplLevel_default|].
    intros f. apply Compress_job_flags.
  - by destruct (Compress_runs tid options_ input output fuel w) as (_ & _ & ?).
  - intros out Hret.
    destruct (Compress_returned tid options_ input output fuel w OK out Hret)
      as (out' & _ & _ & [(Hne & _)|(_ & x & Hlast & _)]); [done|].
    intros Hnil. by rewrite Hnil in Hlast.
  - intros Hfuel [job Hjob].
    destruct (Compress_cached tid options_ input output fuel w job Hjob)
      as (rs & -> & Hrs).
    rewrite executions_execute. destruct rs; [|done].
    exfalso. apply Hrs; [lia | done].
  - apply Compress_progress.
Qed.

Lemma Compress_hands_over_configured_job_witness :
  let w := Scripted.fresh (Scripted.healthy [] (Scripted.result 0 4 [9; 8; 7; 6])) in
  let r := Compress 0 (default_options qpl_path_software)
             {| data_ := 4096; size_ := 10 |} [] 1 w in
  exists x,
    last (executions (new_events w r)) = Some x
    /\ deflate_job_ (final_state r) !! (0%nat, 2%nat) = Some x.1.1.2
    /\ buf_initialized x.1.1.2 = true
    /\ job_level x.1.2 = Some qpl_default_level
    /\ QPL_FLAG_DYNAMIC_HUFFMAN ∈ flags x.1.2.
Proof.
  intros w r.
  destruct (Compress_hands_over_configured_job (H := Scripted.scripted_engine) 0
              (default_options qpl_path_software)
              {| data_ := 4096; size_ := 10 |} [] 1 w)
    as (Hall & _ & Hok & _).
  assert (Hret : returned r = Some (OK, [10; 9; 8; 7; 6]))
    by (vm_compute; reflexivity).
  apply Hok, last_is_Some in Hret as (x & Hlast).
  exists x. split; [exact Hlast|].
  apply last_Some in Hlast as (l' & Hl'). rewrite Hl' in Hall.
  apply Forall_app in Hall as (_ & Hx).
  apply Forall_singleton in Hx
    as (_ & Hafter & [Hbefore|(_ & Hinit)] & _ & _ & _ & Hlevel & Hflags).
  - vm_compute in Hbefore. discriminate.
  - split; [exact Hafter|]. split; [exact Hinit|]. split; [exact Hlevel|].
    apply Hflags. right. right. right. right. split; reflexivity.
Defined.

(** X5: every [qpl_execute_job] call of [Uncompress] is handed a
    decompression job from the decompression vector -- the job buffer is
    the entry of [inflate_job_] at the calling thread and [execution_path],
    which was there before the call or has been initialised by it, and
    [deflate_job_] is not touched -- whose source starts right after the
    length prefix of the input and covers the rest of it, whose destination
    is the block the allocator returned, of exactly the decoded size, and
    whose flags are FIRST, LAST and OMIT_CHECKSUMS, whatever the level, mode
    and verify options are.  Such a call is made: before success is
    returned, and in any case, with one execution allowed, unless the call
    has returned. *)
Theorem Uncompress_hands_over_configured_job {E : Type} `{QplEngine E}
    (tid : nat) (options_ : IAACompressorOptions) (info : UncompressionInfo)
    (input : bytes) (output output_length : Z) (fuel : nat) (w : World E) :
  let r := Uncompress tid options_ info input output output_length fuel w in
  let slot := (tid, path_index (execution_path options_)) in
  Forall (fun x =>
            exists consumed new_input n p,
              input = consumed ++ new_input
              /\ DecodeSize input = Some (new_input, n)
              /\ GetMemoryAllocator info n = AllocReturns p /\ p <> 0
              /\ x.1.1.1 = Inflate
              /\ inflate_job_ (final_state r) !! slot = Some x.1.1.2
              /\ (inflate_job_ w !! slot = Some x.1.1.2
                  \/ (inflate_job_ w !! slot = None
                      /\ buf_initialized x.1.1.2 = true))
              /\ op x.1.2 = qpl_op_decompress
              /\ next_in_ptr x.1.2
                 = {| ptr_object := InputRange;
                      ptr_extent := Z.of_nat (List.length input);
                      ptr_offset := Z.of_nat (List.length consumed) |}
              /\ available_in x.1.2 = Z.of_nat (List.length new_input) mod 2 ^ 32
              /\ next_out_ptr x.1.2
                 = {| ptr_object := HeapBlock p; ptr_extent := n; ptr_offset := 0 |}
              /\ available_out x.1.2 = n
              /\ flags x.1.2
                 = [QPL_FLAG_FIRST; QPL_FLAG_LAST; QPL_FLAG_OMIT_CHECKSUMS])
         (executions (new_events w r))
  /\ deflate_job_ (final_state r) = deflate_job_ w
  /\ (forall out len,
         returned r = Some (OK, out, len) -> executions (new_events w r) <> [])
  /\ ((0 < fuel)%nat ->
      is_Some (returned r) \/ executions (new_events w r) <> []).
Proof.
  intros r slot. subst r slot.
  split; [|split].
  - eapply Forall_impl; [apply Uncompress_executions_buffer|].
    intros x (new_input & n & p & Hdec & Halloc & Hp & Hc & -> & Hafter & Hbefore).
    cbn beta.
    destruct (DecodeSize_shape input new_input n Hdec) as [(consumed & Hin & _) _].
    exists consumed, new_input, n, p.
    split; [done|]. split; [done|]. split; [done|]. split; [done|].
    split; [done|]. split; [done|]. split; [done|]. split; [done|]. split.
    { unfold Uncompress_job. cbn [next_in_ptr]. f_equal.
      rewrite Hin at 1. rewrite length_app. lia. }
    done.
  - by destruct (Uncompress_runs tid options_ info input output output_length
                   fuel w) as (_ & _ & ?).
  - apply Uncompress_progress.
Qed.

Lemma Uncompress_hands_over_configured_job_witness :
  let w := Scripted.fresh (Scripted.healthy [] (Scripted.result 0 10 [])) in
  let r := Uncompress 0 (default_options qpl_path_software)
             {| GetMemoryAllocator := fun _ => AllocReturns 8192 |}
             [10; 9; 8; 7; 6] 0 0 1 w in
  exists x,
    last (executions (new_events w r)) = Some x
    /\ inflate_job_ (final_state r) !! (0%nat, 2%nat) = Some x.1.1.2
    /\ buf_initialized x.1.1.2 = true
    /\ next_out_ptr x.1.2
       = {| ptr_object := HeapBlock 8192; ptr_extent := 10; ptr_offset := 0 |}
    /\ available_in x.1.2 = 4.
Proof.
  intros w r.
  destruct (Uncompress_hands_over_configured_job
              (H := Scripted.scripted_engine) 0
              (default_options qpl_path_software)
              {| GetMemoryAllocator := fun _ => AllocReturns 8192 |}
              [10; 9; 8; 7; 6] 0 0 1 w)
    as (Hall & _ & Hok & _).
  assert (Hret : returned r = Some (OK, 8192, 10))
    by (vm_compute; reflexivity).
  apply Hok, last_is_Some in Hret as (x & Hlast).
  exists x. split; [exact Hlast|].
  apply last_Some in Hlast as (l' & Hl'). rewrite Hl' in Hall.
  apply Forall_app in Hall as (_ & Hx).
  apply Forall_singleton in Hx
    as (consumed & new_input & n & p & _ & Hdec & Halloc & _ & _ & Hafter
        & [Hbefore|(_ & Hinit)] & _ & _ & Havail & Hout & _).
  - vm_compute in Hbefore. discriminate.
  - assert (Hnew : new_input = [9; 8; 7; 6] /\ n = 10).
    { vm_compute in Hdec. by injection Hdec as <- <-. }
    destruct Hnew as (-> & ->).
    cbn in Halloc. injection Halloc as <-.
    split; [exact Hafter|]. split; [exact Hinit|]. split; [exact Hout|].
    exact Havail.
Defined.

(** ** What [Compress] leaves in the output string *)

Section OutputString.

Context {E : Type} `{QplEngine E}.

Lemma EncodeSize_appends n (output : bytes) :
  (EncodeSize n output).2 = output ++ encode_size n.
Proof. reflexivity. Qed.

Lemma Compress_header_length_app input (output : bytes) :
  Z.of_nat (List.length output) + 5 < 2 ^ 32 ->
  Compress_header_length input output
  = Z.of_nat (List.length (output ++ encode_size (size_ input))).
Proof.
  intros Hlen. unfold Compress_header_length, EncodeSize. cbn [fst].
  change (Coding.PutVarint32 output (wrap32 (size_ input)))
    with (output ++ encode_size (size_ input)).
  apply wrap32_small. rewrite length_app.
  pose proof (encode_size_length (size_ input)).
  change (2 ^ 32) with 4294967296 in *. lia.
Qed.

(** The resized string starts with what the string held and the prefix,
    and is at least that long. *)
Lemma Compress_resized_app input (output : bytes) :
  Z.of_nat (List.length output) + 5 < 2 ^ 32 ->
  0 <= size_ input < 2 ^ 63 ->
  take (List.length (output ++ encode_size (size_ input)))
    (Compress_resized input output)
  = output ++ encode_size (size_ input)
  /\ (List.length (output ++ encode_size (size_ input))
      <= List.length (Compress_resized input output))%nat
  /\ Z.of_nat (List.length (Compress_resized input output))
     = Compress_capacity input output
  /\ Compress_capacity input output <= 2 ^ 32 - 1.
Proof.
  intros Hlen Hn.
  pose proof (encode_size_length (size_ input)) as Henc.
  pose proof (Compress_header_length_app input output Hlen) as Hh.
  rewrite length_app in Hh.
  assert (Hcap : Compress_capacity input output
                 = Z.min (Compress_header_length input output + size_ input
                          + 5 * ceil_div (size_ input) 65535) (2 ^ 32 - 1)).
  { unfold Compress_capacity. apply Compress_output_length_worst_case; [|done].
    rewrite Hh. change (2 ^ 32) with 4294967296 in *. lia. }
  assert (Hpos : 0 <= (size_ input + 65535 - 1) / 65535)
    by (apply Z.div_pos; lia).
  assert (Hge : Compress_header_length input output
                <= Compress_capacity input output <= 2 ^ 32 - 1).
  { rewrite Hcap. unfold ceil_div. rewrite Hh.
    change (2 ^ 32) with 4294967296 in *. lia. }
  assert (Hres : Compress_resized input output
                 = (output ++ encode_size (size_ input))
                   ++ replicate (Z.to_nat (Compress_capacity input output)
                                 - List.length (output ++ encode_size (size_ input)))
                        0).
  { unfold Compress_resized, string_resize. rewrite EncodeSize_appends.
    apply resize_ge. rewrite length_app. lia. }
  split; [rewrite Hres; apply take_app_length|].
  split; [rewrite Hres, !length_app; lia|].
  split; [|lia].
  unfold Compress_resized, string_resize. rewrite length_resize. lia.
Qed.

End OutputString.

(** X6: [Compress] appends to the output string: what the string held at
    the call is kept, and the length prefix comes after it.  For a string
    shorter than [2^32 - 5] bytes and a block shorter than [2^63] bytes, the
    header length the call works with is the old size plus the size of the
    varint, every byte of a returned string below that position is the
    byte of the old contents followed by the varint, and a string that is
    at least that long starts with them. *)
Theorem Compress_appends_to_output {E : Type} `{QplEngine E}
    (tid : nat) (options_ : IAACompressorOptions) (input : Slice)
    (output : bytes) (fuel : nat) (w : World E) (status : Status) (out : bytes) :
  Z.of_nat (List.length output) + 5 < 2 ^ 32 ->
  0 <= size_ input < 2 ^ 63 ->
  returned (Compress tid options_ input output fuel w) = Some (status, out) ->
  let header := output ++ encode_size (size_ input) in
  Compress_header_length input output = Z.of_nat (List.length header)
  /\ (forall i : nat,
         (i < List.length header)%nat -> (i < List.length out)%nat ->
         out !! i = header !! i)
  /\ ((List.length header <= List.length out)%nat ->
      take (List.length header) out = header)
  /\ (status <> OK -> take (List.length header) out = header).
Proof.
  intros Hlen Hn Hret header.
  pose proof (Compress_header_length_app input output Hlen) as Hh.
  destruct (Compress_resized_app input output Hlen Hn) as (Htake & Hle & Hsize & _).
  fold header in Hh, Htake, Hle.
  assert (Hpoint : forall i : nat,
             (i < List.length header)%nat -> (i < List.length out)%nat ->
             out !! i = header !! i).
  { intros i Hi Hout.
    rewrite (Compress_returns_header tid options_ input output fuel w status out i);
      [ | exact Hret | lia | lia | exact Hout].
    rewrite <- Htake. symmetry. by apply lookup_take_lt. }
  assert (Hwhole : (List.length header <= List.length out)%nat ->
                   take (List.length header) out = header).
  { intros Hlong. apply list_eq. intros i.
    destruct (decide (i < List.length header)%nat) as [Hi|Hi].
    - rewrite lookup_take_lt by done. apply Hpoint; [done | lia].
    - rewrite lookup_take_ge by lia. symmetry. apply lookup_ge_None. lia. }
  split; [done|]. split; [done|]. split; [done|].
  intros Hne. apply Hwhole.
  destruct (Compress_runs tid options_ input output fuel w) as (Hrun & _ & _).
  destruct Hrun as [status' evs w' Hacq | buf evs rs w' Hacq _ _
                   | buf evs rs r out' w' Hacq _ _ _ Hlen' _];
    cbn in Hret; [by simplify_eq | done |].
  destruct (decide (exec_status r <> QPL_STS_OK)); simplify_eq.
  by rewrite Hlen'.
Qed.

Lemma Compress_appends_to_output_witness :
  let input := {| data_ := 4096; size_ := 10 |} in
  let r := Compress 0 (default_options qpl_path_software) input [1; 2; 3] 1
             (Scripted.fresh (Scripted.healthy [] (Scripted.result 0 4 [9; 8; 7; 6]))) in
  returned r = Some (OK, [1; 2; 3; 10; 9; 8; 7; 6])
  /\ take (List.length ([1; 2; 3] ++ encode_size 10)) [1; 2; 3; 10; 9; 8; 7; 6]
     = [1; 2; 3] ++ encode_size 10.
Proof.
  intros input r.
  assert (Hret : returned r = Some (OK, [1; 2; 3; 10; 9; 8; 7; 6]))
    by (vm_compute; reflexivity).
  split; [exact Hret|].
  destruct (Compress_appends_to_output (H := Scripted.scripted_engine) 0
              (default_options qpl_path_software) input [1; 2; 3] 1
              (Scripted.fresh (Scripted.healthy [] (Scripted.result 0 4 [9; 8; 7; 6])))
              OK [1; 2; 3; 10; 9; 8; 7; 6]
              ltac:(done) ltac:(done) Hret) as (_ & _ & Hwhole & _).
  apply Hwhole. vm_compute. lia.
Defined.

(** ** From [Compress] to [Uncompress] *)

Section Framing.

Context {E : Type} `{QplEngine E}.

(** Once the prefix has decoded, the first call of [Uncompress] is the
    allocation of the decoded size. *)
Lemma Uncompress_first_event tid options_ info input output output_length fuel
    (w : World E) new_input n :
  DecodeSize input = Some (new_input, n) ->
  head (new_events w
          (Uncompress tid options_ info input output output_length fuel w))
  = Some (CallAllocate tid n (Allocate n (GetMemoryAllocator info))).
Proof.
  intros Hdec.
  destruct (Uncompress_runs tid options_ info input output output_length fuel w)
    as (Hrun & _ & _).
  destruct Hrun as [w' Hnone _ | ? ? w' ? Hthrow _ | ? ? w' ? Hnull _
                   | ? ? p' status' evs w' ? Halloc _ _
                   | ? ? p' buf evs rs w' ? Halloc _ _ _ _
                   | ? ? p' buf evs rs r w' ? Halloc _ _ _ _ _];
    simplify_eq; cbn [head]; congruence.
Qed.

End Framing.

(** X7: what [Compress] returns with success is a framed block for
    [Uncompress].  For a block shorter than [2^32] bytes compressed into an
    empty string, when the last execution reports no more bytes than the
    [available_out] it was given, the returned string is the varint of the
    block length followed by exactly [job->total_out] bytes; [DecodeSize]
    reads the block length back from it, and [Uncompress] of that string
    starts by asking the allocator for exactly as many bytes as the block
    had. *)
Theorem Compress_output_is_framed {E : Type} `{QplEngine E}
    (tid : nat) (options_ : IAACompressorOptions) (input : Slice)
    (fuel : nat) (w : World E) (out : bytes)
    (x : job_cache * job_buffer * qpl_job * exec_result) :
  0 <= size_ input < 2 ^ 32 ->
  let r := Compress tid options_ input [] fuel w in
  returned r = Some (OK, out) ->
  last (executions (new_events w r)) = Some x ->
  within_available_out x ->
  exists payload,
    out = encode_size (size_ input) ++ payload
    /\ Z.of_nat (List.length payload) = exec_total_out x.2
    /\ DecodeSize out = Some (payload, size_ input)
    /\ forall tid' options' info output output_length fuel' (w' : World E),
         head (new_events w'
                 (Uncompress tid' options' info out output output_length fuel' w'))
         = Some (CallAllocate tid' (size_ input)
                   (GetMemoryAllocator info (size_ input))).
Proof.
  intros Hn r Hret Hlast Hwithin. subst r.
  assert (Hn63 : 0 <= size_ input < 2 ^ 63).
  { change (2 ^ 32) with 4294967296 in Hn.
    change (2 ^ 63) with 9223372036854775808. lia. }
  pose proof (encode_size_length (size_ input)) as Henc.
  destruct (Compress_resized_app input [] ltac:(done) Hn63)
    as (Htake & Hle & Hsize & Hcap32).
  rewrite app_nil_l in Htake, Hle.
  pose proof (Compress_header_length_empty input) as Hh.
  destruct (Compress_runs tid options_ input [] fuel w) as (Hrun & _ & _).
  destruct Hrun as [status' evs w' Hacq | buf evs rs w' Hacq _ _
                   | buf evs rs r out' w' Hacq _ _ _ Hlen' Htake'];
    cbn [returned] in Hret; [simplify_eq; inversion Hacq | done |].
  rewrite executions_app, executions_execute in Hlast.
  erewrite acquired_executions in Hlast by done.
  rewrite app_nil_l, fmap_app, list_fmap_singleton, last_snoc in Hlast.
  destruct (decide (exec_status r <> QPL_STS_OK)); simplify_eq.
  unfold within_available_out, Compress_configured, Compress_job in Hwithin.
  cbn [fst snd available_out] in Hwithin.
  rewrite Hh in *.
  set (h := List.length (encode_size (size_ input))) in *.
  set (t := exec_total_out r) in *.
  assert (Havail : wrap32 (Compress_capacity input [] - Z.of_nat h)
                   = Compress_capacity input [] - Z.of_nat h).
  { apply wrap32_small. change (2 ^ 32) with 4294967296 in *. lia. }
  rewrite Havail in Hwithin.
  assert (Ht : wrap32 t = t).
  { apply wrap32_small. change (2 ^ 32) with 4294967296 in *. lia. }
  assert (Hsum : wrap32 (Z.of_nat h + wrap32 t) = Z.of_nat h + t).
  { rewrite Ht. apply wrap32_small. change (2 ^ 32) with 4294967296 in *. lia. }
  rewrite Hsum. unfold string_resize.
  rewrite resize_le by lia.
  assert (Hprefix : take h (take (Z.to_nat (Z.of_nat h + t)) out')
                    = encode_size (size_ input)).
  { rewrite take_take. replace (h `min` Z.to_nat (Z.of_nat h + t))%nat with h by lia.
    replace (Z.to_nat (Z.of_nat h)) with h in Htake' by lia.
    by rewrite Htake'. }
  exists (drop h (take (Z.to_nat (Z.of_nat h + t)) out')).
  assert (Hout : take (Z.to_nat (Z.of_nat h + t)) out'
                 = encode_size (size_ input)
                   ++ drop h (take (Z.to_nat (Z.of_nat h + t)) out')).
  { rewrite <- Hprefix at 1. by rewrite take_drop. }
  assert (Hdec : DecodeSize (take (Z.to_nat (Z.of_nat h + t)) out')
                 = Some (drop h (take (Z.to_nat (Z.of_nat h + t)) out'),
                         size_ input)).
  { rewrite Hout at 1. by apply DecodeSize_EncodeSize. }
  split; [done|]. split.
  { rewrite length_drop, length_take. cbn [snd]. fold t. lia. }
  split; [done|].
  intros tid' options' info output output_length fuel' w'0.
  by erewrite Uncompress_first_event.
Qed.

Lemma Compress_output_is_framed_witness :
  let input := {| data_ := 4096; size_ := 10 |} in
  let w := Scripted.fresh (Scripted.healthy [] (Scripted.result 0 4 [9; 8; 7; 6])) in
  let r := Compress 0 (default_options qpl_path_software) input [] 1 w in
  returned r = Some (OK, [10; 9; 8; 7; 6])
  /\ exists payload,
       [10; 9; 8; 7; 6] = encode_size 10 ++ payload
       /\ Z.of_nat (List.length payload) = 4
       /\ DecodeSize [10; 9; 8; 7; 6] = Some (payload, 10).
Proof.
  intros input w r.
  assert (Hret : returned r = Some (OK, [10; 9; 8; 7; 6]))
    by (vm_compute; reflexivity).
  split; [exact Hret|].
  destruct (Compress_output_is_framed (H := Scripted.scripted_engine) 0
              (default_options qpl_path_software) input 1 w [10; 9; 8; 7; 6]
              (Deflate,
               {| buf_addr := 0; buf_size := 4096; buf_initialized := true |},
               Compress_configured (default_options qpl_path_software) input [],
               Scripted.result 0 4 [9; 8; 7; 6])
              ltac:(done) Hret ltac:(vm_compute; reflexivity)
              ltac:(vm_compute; split; discriminate))
    as (payload & Hout & Hlen & Hdec & _).
  exists payload. split; [exact Hout|]. split; [exact Hlen | exact Hdec].
Defined.

(** ** The job vectors across calls *)

Section SlotFrame.

Context {E : Type} `{QplEngine E}.

(** A lookup writes to its own place only. *)
Lemma acquired_frame (tid : nat) (path : qpl_path_t)
    (v v' : gmap (nat * nat) job_buffer) res evs (slot : nat * nat) :
  acquired tid path v res v' evs ->
  slot <> (tid, path_index path) ->
  v' !! slot = v !! slot.
Proof.
  intros Hacq Hslot.
  destruct Hacq; try done; by rewrite lookup_insert_ne.
Qed.

Lemma after_call_frame cl (w : World E) c0 slot :
  (c0, slot) <> (call_cache cl, call_slot cl)
  \/ is_Some (job_vector c0 w !! slot) ->
  job_vector c0 (after_call cl w) !! slot = job_vector c0 w !! slot.
Proof.
  intros Hslot.
  destruct cl as [tid o input output fuel
                 | tid o info input output output_length fuel];
    cbn [after_call call_cache call_slot] in *.
  - destruct (Compress_runs tid o input output fuel w) as (Hrun & _ & Hother).
    destruct c0; cbn [job_vector] in *; [|by rewrite Hother].
    apply Compress_run_acquired in Hrun as (res & evs0 & rs & Hacq & _).
    destruct Hslot as [Hne|[job Hjob]].
    + eapply acquired_frame; [done|]. congruence.
    + rewrite Hjob. by eapply acquired_keeps.
  - destruct (Uncompress_runs tid o info input output output_length fuel w)
      as (Hrun & _ & Hother).
    destruct c0; cbn [job_vector] in *; [by rewrite Hother|].
    apply Uncompress_run_acquired in Hrun
      as [(-> & _)|(? & ? & ? & res & evs0 & rs & _ & _ & _ & Hacq & _)];
      [done|].
    destruct Hslot as [Hne|[job Hjob]].
    + eapply acquired_frame; [done|]. congruence.
    + rewrite Hjob. by eapply acquired_keeps.
Qed.

End SlotFrame.

(** X8: the job vectors change at one place only.  A call of [Compress] or
    [Uncompress] leaves every entry of [deflate_job_] and [inflate_job_] as
    it was, except the entry of its own operation, thread and
    [execution_path], and that one only when it was [nullptr]; the same
    holds over any sequence of calls none of which is made at that place. *)
Theorem calls_leave_other_slots {E : Type} `{QplEngine E}
    (cs : list call) (w : World E) (c0 : job_cache) (slot : nat * nat) :
  Forall (fun cl => (c0, slot) <> (call_cache cl, call_slot cl)) cs
  \/ is_Some (job_vector c0 w !! slot) ->
  job_vector c0 (after_calls cs w) !! slot = job_vector c0 w !! slot.
Proof.
  revert w. induction cs as [|cl cs IH]; intros w Hslot; [done|].
  cbn [after_calls foldl]. change (foldl _ ?w' cs) with (after_calls cs w').
  rewrite IH.
  - apply after_call_frame. destruct Hslot as [Hall|Hsome]; [|by right].
    left. by inversion Hall.
  - destruct Hslot as [Hall|Hsome]; [left; by inversion Hall|].
    right. by rewrite after_call_frame by by right.
Qed.

Lemma calls_leave_other_slots_witness :
  let w := Scripted.fresh (Scripted.healthy [] (Scripted.result 0 4 [9; 8; 7; 6])) in
  let cs := [CompressCall 0 (default_options qpl_path_software)
               {| data_ := 4096; size_ := 10 |} [] 1;
             UncompressCall 1 (default_options qpl_path_hardware)
               {| GetMemoryAllocator := fun _ => AllocReturns 8192 |}
               [10; 9; 8; 7; 6] 0 0 1] in
  job_vector Deflate (after_calls cs w) !! (0%nat, 1%nat)
  = job_vector Deflate w !! (0%nat, 1%nat).
Proof.
  intros w cs.
  apply (calls_leave_other_slots (H := Scripted.scripted_engine) cs w Deflate
           (0%nat, 1%nat)).
  left. repeat constructor; cbn; congruence.
Defined.

(** ** Failures before a job exists *)

Section SetupFailures.

Context {E : Type} `{QplEngine E}.

Lemma acquired_setup_failure (tid : nat) (path : qpl_path_t)
    (v v' : gmap (nat * nat) job_buffer) res evs ev msg c buf job rs :
  acquired tid path v res v' evs ->
  setup_failure ev msg ->
  ev ∈ evs ++ (CallExecuteJob tid c buf job <$> rs) ->
  res = inl (Corruption msg) /\ v' = v /\ last evs = Some ev
  /\ v !! (tid, path_index path) = None
  /\ forall t p b s, CallInitJob t p b s ∉ evs.
Proof.
  intros Hacq Hfail Hin.
  apply elem_of_app in Hin as [Hin|Hin]; cycle 1.
  { apply list_elem_of_fmap in Hin as (r & -> & _). inversion Hfail. }
  destruct Hacq as [job0 Hjob0 | status size Hnone Hst | size Hnone
                   | status size job0 Hnone Hst Hinit
                   | size job0 job' Hnone Hinit Hinit' Haddr];
    repeat match goal with
           | Hin : _ ∈ [] |- _ => by apply elem_of_nil in Hin
           | Hin : _ ∈ _ :: _ |- _ =>
               apply elem_of_cons in Hin as [->|Hin]
           end;
    inversion Hfail; subst; try done.
  - do 4 (split; [done|]). intros t p b s [=]%list_elem_of_singleton.
  - do 4 (split; [done|]). intros t p b s Hel.
    apply elem_of_cons in Hel as [[=]|Hel].
    by apply list_elem_of_singleton in Hel.
Qed.

End SetupFailures.

(** X9: a failure of [Compress] before its job exists.  When
    [qpl_get_job_size] answers with a status other than [QPL_STS_OK], or
    [std::make_unique] throws, [Compress] returns the matching
    [Status::Corruption] right after that call: it initialises and executes
    nothing, [deflate_job_] is as before with the entry still [nullptr],
    and the output string is left as resized for the worst case, prefix
    written. *)
Theorem Compress_setup_failure {E : Type} `{QplEngine E}
    (tid : nat) (options_ : IAACompressorOptions) (input : Slice)
    (output : bytes) (fuel : nat) (w : World E) (ev : event) (msg : string) :
  let r := Compress tid options_ input output fuel w in
  setup_failure ev msg ->
  ev ∈ new_events w r ->
  returned r = Some (Corruption msg, Compress_resized input output)
  /\ last (new_events w r) = Some ev
  /\ executions (new_events w r) = []
  /\ (forall t p b s, CallInitJob t p b s ∉ new_events w r)
  /\ deflate_job_ (final_state r) = deflate_job_ w
  /\ deflate_job_ w !! (tid, path_index (execution_path options_)) = None.
Proof.
  intros r Hfail Hin. subst r.
  destruct (Compress_runs tid options_ input output fuel w) as (Hrun & _ & _).
  destruct Hrun as [status' evs w' Hacq | buf evs rs w' Hacq _ _
                   | buf evs rs r out' w' Hacq _ _ _ _ _].
  - rewrite <- (app_nil_r evs) in Hin.
    destruct (acquired_setup_failure _ _ _ _ _ _ _ _ Deflate
                {| buf_addr := 0; buf_size := 0; buf_initialized := false |}
                (Compress_configured options_ input output) []
                Hacq Hfail Hin)
      as (Hres & Hv & Hlast & Hnone & Hinit).
    simplify_eq. cbn [returned final_state].
    split; [done|]. split; [done|].
    split; [by eapply acquired_executions|]. done.
  - destruct (acquired_setup_failure _ _ _ _ _ _ _ _ _ _ _ _ Hacq Hfail Hin)
      as (Hres & _). done.
  - destruct (acquired_setup_failure _ _ _ _ _ _ _ _ _ _ _ _ Hacq Hfail Hin)
      as (Hres & _). done.
Qed.

Lemma Compress_setup_failure_witness :
  let w := Scripted.fresh sizing_fails_once in
  let r := Compress 0 (default_options qpl_path_software)
             {| data_ := 4096; size_ := 10 |} [] 1 w in
  deflate_job_ (final_state r) = deflate_job_ w.
Proof.
  intros w r.
  destruct (Compress_setup_failure (H := Scripted.scripted_engine) 0
              (default_options qpl_path_software)
              {| data_ := 4096; size_ := 10 |} [] 1 w
              (CallGetJobSize 0 qpl_path_software 50 0) (QPL_STATUS 50))
    as (_ & _ & _ & _ & Hv & _).
  - apply (sizing_failed (H := Scripted.scripted_engine)). vm_compute. discriminate.
  - vm_compute. left.
  - exact Hv.
Defined.

(** X10: a failure of [Uncompress] before its job exists.  When
    [qpl_get_job_size] answers with a status other than [QPL_STS_OK], or
    [std::make_unique] throws, the prefix had decoded and the output buffer
    had been allocated; [Uncompress] returns the matching
    [Status::Corruption] right after the failing call, with the caller's
    pointer set to the buffer and the caller's length untouched: it
    initialises and executes nothing, and [inflate_job_] is as before with
    the entry still [nullptr]. *)
Theorem Uncompress_setup_failure {E : Type} `{QplEngine E}
    (tid : nat) (options_ : IAACompressorOptions) (info : UncompressionInfo)
    (input : bytes) (output output_length : Z) (fuel : nat) (w : World E)
    (ev : event) (msg : string) :
  let r := Uncompress tid options_ info input output output_length fuel w in
  setup_failure ev msg ->
  ev ∈ new_events w r ->
  exists new_input n p,
    DecodeSize input = Some (new_input, n)
    /\ Allocate n (GetMemoryAllocator info) = AllocReturns p
    /\ p <> 0
    /\ returned r = Some (Corruption msg, p, output_length)
    /\ last (new_events w r) = Some ev
    /\ executions (new_events w r) = []
    /\ (forall t p' b s, CallInitJob t p' b s ∉ new_events w r)
    /\ inflate_job_ (final_state r) = inflate_job_ w
    /\ inflate_job_ w !! (tid, path_index (execution_path options_)) = None.
Proof.
  intros r Hfail Hin. subst r.
  destruct (Uncompress_runs tid options_ info input output output_length fuel w)
    as (Hrun & _ & _).
  destruct Hrun as [w' Hnone _ | ? ? w' ? Hthrow _ | ? ? w' ? Hnull _
                   | new_input n p status' evs w' Hdec Halloc Hp Hacq
                   | ? ? p buf evs rs w' ? ? _ Hacq _ _
                   | ? ? p buf evs rs r w' ? ? _ Hacq _ _ _].
  - by apply elem_of_nil in Hin.
  - apply list_elem_of_singleton in Hin as ->. inversion Hfail.
  - apply list_elem_of_singleton in Hin as ->. inversion Hfail.
  - apply elem_of_cons in Hin as [->|Hin]; [inversion Hfail|].
    rewrite <- (app_nil_r evs) in Hin.
    destruct (acquired_setup_failure _ _ _ _ _ _ _ _ Inflate
                {| buf_addr := 0; buf_size := 0; buf_initialized := false |}
                (Uncompress_job input new_input p n) []
                Hacq Hfail Hin)
      as (Hres & Hv & Hlast & Hnone & Hinit).
    simplify_eq. cbn [returned final_state].
    exists new_input, n, p. do 4 (split; [done|]).
    split. { destruct evs; [done|]. done. }
    split. { rewrite executions_allocate. by eapply acquired_executions. }
    split; [|done].
    intros t p' b s Hel. apply elem_of_cons in Hel as [[=]|Hel].
    by eapply Hinit.
  - apply elem_of_cons in Hin as [->|Hin]; [inversion Hfail|].
    destruct (acquired_setup_failure _ _ _ _ _ _ _ _ _ _ _ _ Hacq Hfail Hin)
      as (Hres & _). done.
  - apply elem_of_cons in Hin as [->|Hin]; [inversion Hfail|].
    destruct (acquired_setup_failure _ _ _ _ _ _ _ _ _ _ _ _ Hacq Hfail Hin)
      as (Hres & _). done.
Qed.

Lemma Uncompress_setup_failure_witness :
  let w := Scripted.fresh sizing_fails_once in
  let r := Uncompress 0 (default_options qpl_path_software)
             {| GetMemoryAllocator := fun _ => AllocReturns 8192 |}
             [10; 9; 8; 7; 6] 0 0 1 w in
  returned r = Some (Corruption (QPL_STATUS 50), 8192, 0).
Proof.
  intros w r.
  destruct (Uncompress_setup_failure (H := Scripted.scripted_engine) 0
              (default_options qpl_path_software)
              {| GetMemoryAllocator := fun _ => AllocReturns 8192 |}
              [10; 9; 8; 7; 6] 0 0 1 w
              (CallGetJobSize 0 qpl_path_software 50 0) (QPL_STATUS 50))
    as (new_input & n & p & _ & Halloc & _ & Hret & _).
  - apply (sizing_failed (H := Scripted.scripted_engine)). vm_compute. discriminate.
  - vm_compute. right. left.
  - cbn in Halloc. injection Halloc as <-. exact Hret.
Defined.

(** ** Calls to the memory allocator *)

Section AllocatorCalls.

Context {E : Type} `{QplEngine E}.

Lemma filter_allocator_execute tid c buf job rs :
  filter is_allocator_event (CallExecuteJob tid c buf job <$> rs) = [].
Proof. induction rs as [|r rs IH]; [done|]. cbn. done. Qed.

Lemma acquired_no_allocator (tid : nat) (path : qpl_path_t)
    (v v' : gmap (nat * nat) job_buffer) res evs :
  acquired tid path v res v' evs -> filter is_allocator_event evs = [].
Proof. by destruct 1. Qed.

End AllocatorCalls.

(** X11: [Uncompress] calls the memory allocator once and never gives a
    block back.  Whatever the engine answers and however often the busy
    loop runs, the allocator calls of a run are: none when the prefix does
    not decode, and otherwise the one [Allocate] of the decoded size -- no
    second allocation on a retry and no deallocation, on success or on
    failure. *)
Theorem Uncompress_allocates_once {E : Type} `{QplEngine E}
    (tid : nat) (options_ : IAACompressorOptions) (info : UncompressionInfo)
    (input : bytes) (output output_length : Z) (fuel : nat) (w : World E) :
  filter is_allocator_event
    (new_events w (Uncompress tid options_ info input output output_length fuel w))
  = match DecodeSize input with
    | None => []
    | Some (_, n) => [CallAllocate tid n (GetMemoryAllocator info n)]
    end.
Proof.
  destruct (Uncompress_runs tid options_ info input output output_length fuel w)
    as (Hrun & _ & _).
  destruct Hrun as [w' Hdec _ | ? ? w' Hdec Halloc _ | ? ? w' Hdec Halloc _
                   | ? ? p status' evs w' Hdec Halloc _ Hacq
                   | ? ? p buf evs rs w' Hdec Halloc _ Hacq _ _
                   | ? ? p buf evs rs r w' Hdec Halloc _ Hacq _ _ _];
    rewrite Hdec; try (unfold Allocate in Halloc; rewrite Halloc);
    rewrite ?filter_cons_True by done; try done; f_equal;
    rewrite ?filter_app, ?filter_allocator_execute, ?app_nil_r;
    by eapply acquired_no_allocator.
Qed.
